(** * GTSAM: inequality factor graphs, calibrated cameras, Pose2 SLAM driver

    A shallow embedding of
    - [gtsam_unstable/nonlinear/NonlinearInequalityFactorGraph.h]
    - [gtsam/geometry/CalibratedCamera.h]
    - [cpp/Pose2SLAMOptimizer.cpp]
    together with the properties the specification states about them. *)

From Stdlib Require Import ZArith List Bool Lia.
From Stdlib Require Import Floats.SpecFloat.
From Stdlib Require Import QArith Qcanon Qpower Qabs Lqa.
From stdpp Require Import base option list gmap strings.

Import ListNotations.

#[local] Open Scope Z_scope.

(* ===================================================================== *)
(** ** Outcomes of a C++ call *)
(* ===================================================================== *)

(** gtsam keys are [size_t] indices. *)
Definition Key := N.
Bind Scope N_scope with Key.

(** The exceptions the embedded code can see. *)
Inductive exception : Type :=
| CheiralityException
| ValuesKeyDoesNotExist (k : Key)
| RuntimeError (what : string).

(** A call returns, throws, or has no defined behaviour (a null
    [shared_ptr] is dereferenced, a vector is indexed past its end,
    [begin()] of an empty container is dereferenced). *)
Inductive outcome (A : Type) : Type :=
| Ret (a : A)
| Throw (e : exception)
| Undefined.

Arguments Ret {A} a.
Arguments Throw {A} e.
Arguments Undefined {A}.

#[global] Instance outcome_ret : MRet outcome := fun A a => Ret a.

#[global] Instance outcome_bind : MBind outcome := fun A B k c =>
  match c with
  | Ret a => k a
  | Throw e => Throw e
  | Undefined => Undefined
  end.

(** [p->...] on a [shared_ptr] that may be null. *)
Definition deref {A : Type} (p : option A) : outcome A :=
  match p with
  | Some a => Ret a
  | None => Undefined
  end.

(* ===================================================================== *)
(** ** IEEE 754 binary64 *)
(* ===================================================================== *)

(** A C++ [double] is a binary64 value; comparisons follow IEEE 754, so
    every ordered comparison with a NaN is false. *)
Definition double := spec_float.

Definition prec : Z := 53.
Definition emax : Z := 1024.

Module D.
Definition gt (a b : double) : bool := SFltb b a.
Definition lt (a b : double) : bool := SFltb a b.
Definition le (a b : double) : bool := SFleb a b.
Definition fabs (a : double) : double := SFabs a.
Definition add : double -> double -> double := SFadd prec emax.
Definition sub : double -> double -> double := SFsub prec emax.
Definition mul : double -> double -> double := SFmul prec emax.
Definition div : double -> double -> double := SFdiv prec emax.
Definition of_Z (z : Z) : double := binary_normalize prec emax z 0 false.
Definition zero : double := S754_zero false.
Definition one : double := of_Z 1.
Definition nan : double := S754_nan.
Definition is_nan (a : double) : bool :=
  match a with S754_nan => true | _ => false end.
End D.

(** Eigen's dynamic [Vector] of doubles, and gtsam's [VectorValues]. *)
Definition Vector := list double.
Abbreviation VectorValues := (gmap Key Vector).

(** [v[i]]: without a defined result past the end. *)
Definition index (v : Vector) (i : nat) : outcome double := deref (v !! i).

(** [VectorValues::exists]. *)
Definition VectorValues_exists (c : VectorValues) (j : Key) : bool :=
  match c !! j with
  | Some _ => true
  | None => false
  end.

(* ===================================================================== *)
(** ** NonlinearInequalityFactorGraph *)
(* ===================================================================== *)

Section InequalityGraph.

(** [Values], [JacobianFactor] and [HessianFactor] are used by the
    graph only through the factors' virtual functions. *)
Context {Values JacobianFactor HessianFactor : Type}.

(** [GaussianFactor::shared_ptr]: what [NonlinearFactor::linearize]
    returns; [dynamic_pointer_cast<JacobianFactor>] succeeds on the
    first variant only. *)
Inductive GaussianFactor : Type :=
| IsJacobian (jf : JacobianFactor)
| IsHessian (hf : HessianFactor).

Definition cast_JacobianFactor (g : GaussianFactor) : option JacobianFactor :=
  match g with
  | IsJacobian jf => Some jf
  | IsHessian _ => None
  end.

(** The part of a factor seen through [NoiseModelFactor]. *)
Record NoiseModelFactor : Type := {
  unwhitenedError : Values -> outcome Vector
}.

(** The part of a factor seen through [NonlinearConstraint]. *)
Record NonlinearConstraint : Type := {
  dualKey : Key
}.

(** A [NonlinearFactor::shared_ptr] held by the graph: its virtual
    [linearize], and the results of the two dynamic casts the graph
    performs on it ([None] is the null pointer of a failed cast). *)
Record NonlinearFactor : Type := {
  factor_linearize : Values -> outcome GaussianFactor;
  cast_NoiseModelFactor : option NoiseModelFactor;
  cast_NonlinearConstraint : option NonlinearConstraint
}.

(** The linear inequality built by [LinearInequality(jf, dualKey)]. *)
Record LinearInequality : Type := {
  li_jacobian : JacobianFactor;
  li_dualKey : Key
}.

Definition NonlinearInequalityFactorGraph := list NonlinearFactor.
Definition LinearInequalityFactorGraph := list LinearInequality.

(** [FactorGraph::add]: push_back. *)
Definition add (g : LinearInequalityFactorGraph) (f : LinearInequality)
  : LinearInequalityFactorGraph := g ++ [f].

(** The [BOOST_FOREACH] of [linearize], over the factors still to visit. *)
Fixpoint linearize_loop (factors : NonlinearInequalityFactorGraph)
    (linearizationPoint : Values) (linearGraph : LinearInequalityFactorGraph)
  : outcome LinearInequalityFactorGraph :=
  match factors with
  | [] => Ret linearGraph
  | factor :: rest =>
      g ← factor_linearize factor linearizationPoint;
      jacobian ← deref (cast_JacobianFactor g);
      constraint ← deref (cast_NonlinearConstraint factor);
      linearize_loop rest linearizationPoint
        (add linearGraph
           {| li_jacobian := jacobian; li_dualKey := dualKey constraint |})
  end.

Definition linearize (graph : NonlinearInequalityFactorGraph)
    (linearizationPoint : Values) : outcome LinearInequalityFactorGraph :=
  linearize_loop graph linearizationPoint [].

(** [checkFeasibilityAndComplimentary]: the loop returns [false] from
    inside and [true] after the last factor. *)
Fixpoint checkFeasibilityAndComplimentary
    (graph : NonlinearInequalityFactorGraph)
    (values : Values) (duals : VectorValues) (tol : double) : outcome bool :=
  match graph with
  | [] => Ret true
  | factor :: rest =>
      noiseModelFactor ← deref (cast_NoiseModelFactor factor);
      error ← unwhitenedError noiseModelFactor values;
      error0 ← index error 0;
      if D.gt error0 tol then Ret false
      else
        constraint ← deref (cast_NonlinearConstraint factor);
        if negb (VectorValues_exists duals (dualKey constraint))
        then checkFeasibilityAndComplimentary rest values duals tol
        else
          if D.gt (D.fabs error0) tol then Ret false
          else checkFeasibilityAndComplimentary rest values duals tol
  end.


(** The scalar the check compares for one factor: [error[0]] of its
    unwhitened error, as the loop body obtains it. *)
Definition constraint_error (factor : NonlinearFactor) (values : Values)
  : outcome double :=
  noiseModelFactor ← deref (cast_NoiseModelFactor factor);
  error ← unwhitenedError noiseModelFactor values;
  index error 0.

(** [factor] is an inequality constraint with dual key [k] whose error
    at [values] is [e]: both casts succeed and the error vector has a
    first component. *)
Definition inequality_factor (factor : NonlinearFactor) (values : Values)
    (e : double) (k : Key) : Prop :=
  constraint_error factor values = Ret e /\
  dualKey <$> cast_NonlinearConstraint factor = Some k.

(** An inequality factor graph, evaluated at [values]. *)
Definition inequality_graph (graph : NonlinearInequalityFactorGraph)
    (values : Values) : Prop :=
  Forall (fun factor => exists e k, inequality_factor factor values e k) graph.

(** What the check asks of a constraint with error [e] and dual key
    [k]: primal feasibility, and complementarity when [k] is in the
    dual map. *)
Definition satisfied (duals : VectorValues) (tol e : double) (k : Key) : bool :=
  negb (D.gt e tol) &&
  (negb (VectorValues_exists duals k) || negb (D.gt (D.fabs e) tol)).

(** A factor that linearizes at [values] to the Jacobian factor [jf] and
    is a constraint with dual key [k]. *)
Definition linearizes_to (factor : NonlinearFactor) (values : Values)
    (jf : JacobianFactor) (k : Key) : Prop :=
  factor_linearize factor values = Ret (IsJacobian jf) /\
  dualKey <$> cast_NonlinearConstraint factor = Some k.

End InequalityGraph.

Arguments GaussianFactor : clear implicits.
Arguments NoiseModelFactor : clear implicits.
Arguments NonlinearFactor : clear implicits.
Arguments LinearInequality : clear implicits.
Arguments NonlinearInequalityFactorGraph : clear implicits.
Arguments LinearInequalityFactorGraph : clear implicits.

(* ===================================================================== *)
(** ** Scalars of the camera geometry *)
(* ===================================================================== *)

(** The arithmetic the projection uses.  The geometry is stated once and
    read at binary64 (what the program computes) and at the rationals
    (what the formulas mean). *)
Class Scalar (R : Type) : Type := {
  s_zero : R;
  s_one : R;
  s_add : R -> R -> R;
  s_sub : R -> R -> R;
  s_mul : R -> R -> R;
  s_div : R -> R -> R;
  s_le : R -> R -> bool;
  s_lt : R -> R -> bool
}.

(** A strict comparison excludes the converse weak one. *)
Class ScalarOrder (R : Type) `{Scalar R} : Prop :=
  s_lt_not_le : forall a b : R, s_lt a b = true -> s_le b a = false.

#[global] Instance double_Scalar : Scalar double := {|
  s_zero := D.zero;
  s_one := D.one;
  s_add := D.add;
  s_sub := D.sub;
  s_mul := D.mul;
  s_div := D.div;
  s_le := D.le;
  s_lt := D.lt
|}.

#[global] Instance Qc_Scalar : Scalar Qc := {|
  s_zero := Q2Qc 0;
  s_one := Q2Qc 1;
  s_add := Qcplus;
  s_sub := Qcminus;
  s_mul := Qcmult;
  s_div := Qcdiv;
  s_le := fun a b => Qle_bool a b;
  s_lt := fun a b => negb (Qle_bool b a)
|}.

(* ===================================================================== *)
(** ** CalibratedCamera *)
(* ===================================================================== *)

Module Camera.
Section Camera.

Context {R : Type} `{Scalar R}.

#[local] Infix "+" := s_add.
#[local] Infix "-" := s_sub.
#[local] Infix "*" := s_mul.
#[local] Infix "/" := s_div.

Record Point2 : Type := mkPoint2 { p2x : R; p2y : R }.
Record Point3 : Type := mkPoint3 { p3x : R; p3y : R; p3z : R }.

(** A 3x3 rotation matrix, entry [rIJ] at row I, column J. *)
Record Rot3 : Type := mkRot3 {
  r00 : R; r01 : R; r02 : R;
  r10 : R; r11 : R; r12 : R;
  r20 : R; r21 : R; r22 : R
}.

(** Modelled from the spec: [Pose3] (gtsam/geometry/Pose3.h is not among
    the sources), "a rigid transform", "rotation + translation": the
    camera-to-world rotation and the camera centre. *)
Record Pose3 : Type := mkPose3 { rotation : Rot3; translation : Point3 }.

(** Modelled from the spec: [Pose3::transform_to] ("computes the point
    in camera coordinates"): R^T (p - t). *)
Definition transform_to (pose : Pose3) (p : Point3) : Point3 :=
  let Rm := rotation pose in
  let t := translation pose in
  let dx := p3x p - p3x t in
  let dy := p3y p - p3y t in
  let dz := p3z p - p3z t in
  mkPoint3 (r00 Rm * dx + r10 Rm * dy + r20 Rm * dz)
           (r01 Rm * dx + r11 Rm * dy + r21 Rm * dz)
           (r02 Rm * dx + r12 Rm * dy + r22 Rm * dz).

(** Modelled from the spec: [Pose3::transform_from], camera coordinates
    back to the world: R q + t. *)
Definition transform_from (pose : Pose3) (q : Point3) : Point3 :=
  let Rm := rotation pose in
  let t := translation pose in
  mkPoint3 (r00 Rm * p3x q + r01 Rm * p3y q + r02 Rm * p3z q + p3x t)
           (r10 Rm * p3x q + r11 Rm * p3y q + r12 Rm * p3z q + p3y t)
           (r20 Rm * p3x q + r21 Rm * p3y q + r22 Rm * p3z q + p3z t).

(** The rows of a rigid transform's rotation are orthonormal: R R^T = I. *)
Definition orthonormal (Rm : Rot3) : Prop :=
  r00 Rm * r00 Rm + r01 Rm * r01 Rm + r02 Rm * r02 Rm = s_one /\
  r10 Rm * r10 Rm + r11 Rm * r11 Rm + r12 Rm * r12 Rm = s_one /\
  r20 Rm * r20 Rm + r21 Rm * r21 Rm + r22 Rm * r22 Rm = s_one /\
  r00 Rm * r10 Rm + r01 Rm * r11 Rm + r02 Rm * r12 Rm = s_zero /\
  r00 Rm * r20 Rm + r01 Rm * r21 Rm + r02 Rm * r22 Rm = s_zero /\
  r10 Rm * r20 Rm + r11 Rm * r21 Rm + r12 Rm * r22 Rm = s_zero.

(** [class PinholeBase { Pose3 pose_; ... }] *)
Record PinholeBase : Type := mkPinholeBase { pose_ : Pose3 }.

(** [class CalibratedCamera : public PinholeBase], no member of its own. *)
Record CalibratedCamera : Type := mkCalibratedCamera { base : PinholeBase }.

(** [PinholeBase::pose() const], inherited by the camera. *)
Definition PinholeBase_pose (b : PinholeBase) : Pose3 := pose_ b.
Definition pose (camera : CalibratedCamera) : Pose3 := PinholeBase_pose (base camera).

(** [dim()] and [Dim()]. *)
Definition dim (camera : CalibratedCamera) : nat := 6.
Definition Dim : nat := 6.

(** Modelled from the spec: [PinholeBase::project_to_camera] (declared
    in the header, defined in CalibratedCamera.cpp, not among the
    sources): "its normalized projection (division by depth)". *)
Definition project_to_camera (P : Point3) : Point2 :=
  mkPoint2 (p3x P / p3z P) (p3y P / p3z P).

(** Modelled from the spec: [PinholeBase::backproject_from_camera]
    (declared in the header only): "inverse of projection given a known
    depth/scale; exact algebraic inverse, no iteration". *)
Definition backproject_from_camera (p : Point2) (scale : R) : Point3 :=
  mkPoint3 (p2x p * scale) (p2y p * scale) scale.

(** The depth of a world point in camera coordinates. *)
Definition depth (camera : CalibratedCamera) (point : Point3) : R :=
  p3z (transform_to (pose camera) point).

(** Modelled from the spec: [CalibratedCamera::project] (declared in the
    header only): "computes the point in camera coordinates, then its
    normalized projection", and "fails with a Cheirality error when the
    point's depth in camera coordinates is non-positive".  The optional
    Jacobian outputs do not affect the value or the error and are left
    out. *)
Definition project (camera : CalibratedCamera) (point : Point3)
  : outcome Point2 :=
  let q := transform_to (pose camera) point in
  if s_le (p3z q) s_zero then Throw CheiralityException
  else Ret (project_to_camera q).

(** Modelled from the spec: backprojection of a camera ("inverse of
    projection given a known depth"): the camera-frame point of
    [backproject_from_camera], taken back to the world. *)
Definition backproject (camera : CalibratedCamera) (p : Point2) (scale : R)
  : Point3 :=
  transform_from (pose camera) (backproject_from_camera p scale).

(** *** range *)

(** A Jacobian block, row by row. *)
Definition Matrix := list (list R).

(** [OptionalJacobian<m,n>]: [boost::none], or a reference to the
    caller's matrix, given here by its contents. *)
Definition OptionalJacobian := option Matrix.

(** What a range call leaves behind: the returned distance and the
    contents of the two optional Jacobians after the call. *)
Definition RangeResult : Type := R * OptionalJacobian * OptionalJacobian.

(** [Pose3::range(const Point3&, ...)] and [Pose3::range(const Pose3&, ...)]
    are defined with [Pose3], outside the sources. *)
Variable Pose3_range_point :
  Pose3 -> Point3 -> OptionalJacobian -> OptionalJacobian -> RangeResult.
Variable Pose3_range_pose :
  Pose3 -> Pose3 -> OptionalJacobian -> OptionalJacobian -> RangeResult.

(** [PinholeBase::range(const Point3& point, Dcamera, Dpoint)] *)
Definition PinholeBase_range_point (b : PinholeBase) (point : Point3)
    (Dcamera Dpoint : OptionalJacobian) : RangeResult :=
  Pose3_range_point (pose_ b) point Dcamera Dpoint.

(** [PinholeBase::range(const Pose3& pose, Dcamera, Dpose)] *)
Definition PinholeBase_range_pose (b : PinholeBase) (pose : Pose3)
    (Dcamera Dpose : OptionalJacobian) : RangeResult :=
  Pose3_range_pose (pose_ b) pose Dcamera Dpose.

(** [CalibratedCamera::range(const CalibratedCamera& camera, H1, H2)] *)
Definition CalibratedCamera_range (this camera : CalibratedCamera)
    (H1 H2 : OptionalJacobian) : RangeResult :=
  Pose3_range_pose (pose this) (pose camera) H1 H2.

(** The targets of a range measurement. *)
Inductive RangeTarget : Type :=
| ToPoint (point : Point3)
| ToPose (pose : Pose3)
| ToCamera (camera : CalibratedCamera).

(** The camera's [range], by overload: the two inherited from
    [PinholeBase] and the camera's own. *)
Definition range (camera : CalibratedCamera) (target : RangeTarget)
    (H1 H2 : OptionalJacobian) : RangeResult :=
  match target with
  | ToPoint point => PinholeBase_range_point (base camera) point H1 H2
  | ToPose p => PinholeBase_range_pose (base camera) p H1 H2
  | ToCamera other => CalibratedCamera_range camera other H1 H2
  end.

(** The specification's range: "delegated to the underlying pose's range
    computation", applied to the same target (a camera target stands for
    its pose). *)
Definition pose_range (p : Pose3) (target : RangeTarget)
    (H1 H2 : OptionalJacobian) : RangeResult :=
  match target with
  | ToPoint point => Pose3_range_point p point H1 H2
  | ToPose q => Pose3_range_pose p q H1 H2
  | ToCamera other => Pose3_range_pose p (pose other) H1 H2
  end.

Definition range_spec (camera : CalibratedCamera) (target : RangeTarget)
    (H1 H2 : OptionalJacobian) : RangeResult :=
  pose_range (pose camera) target H1 H2.

End Camera.

Arguments Point2 R : clear implicits.
Arguments Point3 R : clear implicits.
Arguments Rot3 R : clear implicits.
Arguments Pose3 R : clear implicits.
Arguments PinholeBase R : clear implicits.
Arguments CalibratedCamera R : clear implicits.
Arguments RangeTarget R : clear implicits.
Arguments Matrix R : clear implicits.
Arguments OptionalJacobian R : clear implicits.
Arguments RangeResult R : clear implicits.

End Camera.

(* ===================================================================== *)
(** ** Pose2SLAMOptimizer *)
(* ===================================================================== *)

Module Pose2SLAM.

(** [VectorConfig]: a tangent vector per variable. *)
Abbreviation VectorConfig := (gmap Key Vector).

Section Optimizer.

(** Poses, the datasets' diagonal noise models and the nonlinear solver
    come from headers outside the sources. *)
Context {Pose2 SharedDiagonal Solver : Type}.

(** [SharedGaussian]: the unit model of [noiseModel::Unit::Create(dim)],
    or a model that came with the dataset. *)
Inductive SharedGaussian : Type :=
| Unit_Create (dim : nat)
| FromDataset (model : SharedDiagonal).

(** The factors of a [Pose2Graph]. *)
Inductive Pose2Factor : Type :=
| Prior (j : Key) (z : Pose2) (model : SharedGaussian)
| Constraint (j1 j2 : Key) (z : Pose2) (model : SharedGaussian).

Definition Pose2Graph := list Pose2Factor.

(** [Pose2Config]: a [std::map], given by its bindings in iteration
    (key) order, so that [begin()] is the head. *)
Definition Pose2Config := list (Key * Pose2).

Record Pose2SLAMOptimizer : Type := mkOptimizer {
  graph_ : Pose2Graph;
  theta_ : Pose2Config;
  solver_ : Solver
}.

(** The external collaborators: the dataset table, the file loader, the
    solver as default-constructed and its [initialize], and the
    retraction of a pose. *)
Variable dataset : string -> string * option SharedDiagonal.
Variable load2D :
  string -> Z -> option SharedDiagonal -> bool -> outcome (Pose2Graph * Pose2Config).
Variable solver_default : Solver.
Variable solver_initialize : Solver -> Pose2Graph -> Pose2Config -> Solver.
Variable retract : Pose2 -> Vector -> Pose2.

(** Modelled from the spec: [Pose2Graph::addPrior] (pose2SLAM.h is not
    among the sources): "add an anchoring prior factor on one designated
    variable"; factors are added at the end of the graph. *)
Definition addPrior (graph : Pose2Graph) (i : Key) (p : Pose2)
    (model : SharedGaussian) : Pose2Graph :=
  graph ++ [Prior i p model].

(** [theta_->begin()]; dereferencing it in an empty map is undefined. *)
Definition begin (theta : Pose2Config) : outcome (Key * Pose2) :=
  deref (head theta).

(** [Pose2SLAMOptimizer::Pose2SLAMOptimizer(dataset_name, path)] *)
Definition Pose2SLAMOptimizer_new (dataset_name path : string)
  : outcome Pose2SLAMOptimizer :=
  let maxID := 0 in
  let addNoise := false in
  let '(filename, noiseModel) := dataset dataset_name in
  (* read graph and initial estimate *)
  loaded ← load2D filename maxID noiseModel addNoise;
  let '(graph, theta) := loaded in
  first ← begin theta;
  let graph := addPrior graph (fst first) (snd first) (Unit_Create 3) in
  (* initialize non-linear solver *)
  let solver := solver_initialize solver_default graph theta in
  Ret (mkOptimizer graph theta solver).

(** [Pose2SLAMOptimizer::update(const VectorConfig&)], the overload the
    two entry points end in, is declared in Pose2SLAMOptimizer.h,
    outside the sources. *)
Variable update_VectorConfig :
  VectorConfig -> Pose2SLAMOptimizer -> Pose2SLAMOptimizer.

(** [Pose2SLAMOptimizer::update(const Vector& x)] *)
Definition update (x : Vector) (o : Pose2SLAMOptimizer) : Pose2SLAMOptimizer :=
  let X : VectorConfig := ∅ in (* TODO *)
  update_VectorConfig X o.

(** [Pose2SLAMOptimizer::updatePreconditioned(const Vector& y)] *)
Definition updatePreconditioned (y : Vector) (o : Pose2SLAMOptimizer)
  : Pose2SLAMOptimizer :=
  let x : Vector := [] in
  update x o.

(** Modelled from the spec: [expmap] of a configuration ("apply
    [retract] to every affected variable, producing the next Values"):
    the variables the tangent map names are retracted, the others kept. *)
Definition expmap (theta : Pose2Config) (X : VectorConfig) : Pose2Config :=
  map (fun kv : Key * Pose2 =>
         match X !! fst kv with
         | Some d => (fst kv, retract (snd kv) d)
         | None => kv
         end) theta.

(** Modelled from the spec: the update by a tangent map that the absent
    overload [update(const VectorConfig&)] performs: the estimate is
    replaced by its retraction, graph and solver are kept. *)
Definition retract_update (X : VectorConfig) (o : Pose2SLAMOptimizer)
  : Pose2SLAMOptimizer :=
  mkOptimizer (graph_ o) (expmap (theta_ o) X) (solver_ o).

(** What the specification asks of an update entry point: the
    correction [x], cut into one tangent vector per variable by [split],
    is retracted into the estimate. *)
Definition update_spec (split : Vector -> VectorConfig) (x : Vector)
    (o : Pose2SLAMOptimizer) : Pose2SLAMOptimizer :=
  retract_update (split x) o.

End Optimizer.

Arguments SharedGaussian : clear implicits.
Arguments Pose2Factor : clear implicits.
Arguments Pose2Graph : clear implicits.
Arguments Pose2Config : clear implicits.
Arguments Pose2SLAMOptimizer : clear implicits.

End Pose2SLAM.

(* ===================================================================== *)
(** ** The check, factor by factor *)
(* ===================================================================== *)

Section InequalityGraphFactors.

Context {Values JacobianFactor HessianFactor : Type}.

(** One turn of the loop of [checkFeasibilityAndComplimentary] lets the
    loop go on: both casts of the factor succeed, its error has a
    component 0, and that component passes the two tests. *)
Definition factor_satisfied
    (factor : NonlinearFactor Values JacobianFactor HessianFactor)
    (values : Values) (duals : VectorValues) (tol : double) : bool :=
  match constraint_error factor values, cast_NonlinearConstraint factor with
  | Ret e, Some c => satisfied duals tol e (dualKey c)
  | _, _ => false
  end.

End InequalityGraphFactors.

(* ===================================================================== *)
(** ** The Jacobians of the projection *)
(* ===================================================================== *)

(** Unary minus, beside the arithmetic of [Scalar]: in binary64 it flips
    the sign, which [0 - x] does not do for a zero. *)
Class ScalarOpp (R : Type) : Type := s_opp : R -> R.

#[global] Instance double_ScalarOpp : ScalarOpp double := SFopp.
#[global] Instance Qc_ScalarOpp : ScalarOpp Qc := Qcopp.

Module Jacobians.
Section Jacobians.

Import Camera.

Context {R : Type} `{Scalar R} `{ScalarOpp R}.

#[local] Infix "+" := s_add.
#[local] Infix "-" := s_sub.
#[local] Infix "*" := s_mul.
#[local] Notation "- x" := (s_opp x).

(** Eigen's fixed-size [Matrix2], [Matrix23] and [Matrix26], entry [IJ]
    at row I, column J, rows as tuples. *)
Record Matrix2 : Type := mkMatrix2 { m00 : R; m01 : R; m10 : R; m11 : R }.

Definition Row3 : Type := R * R * R.
Definition Row6 : Type := R * R * R * R * R * R.

Record Matrix23 : Type := mkMatrix23 { m23_row0 : Row3; m23_row1 : Row3 }.
Record Matrix26 : Type := mkMatrix26 { m26_row0 : Row6; m26_row1 : Row6 }.

(** [Matrix3]: the matrix of a rotation, [R(i,j)] its entry [rij]. *)
Definition Matrix3 : Type := Rot3 R.

(** [A * B] for a 2x2 [A]: entry (i,j) is [A(i,0)*B(0,j) + A(i,1)*B(1,j)]. *)
Definition Matrix2_times_23 (A : Matrix2) (B : Matrix23) : Matrix23 :=
  let '(a0, a1, a2) := m23_row0 B in
  let '(b0, b1, b2) := m23_row1 B in
  mkMatrix23
    (m00 A * a0 + m01 A * b0, m00 A * a1 + m01 A * b1, m00 A * a2 + m01 A * b2)
    (m10 A * a0 + m11 A * b0, m10 A * a1 + m11 A * b1, m10 A * a2 + m11 A * b2).

Definition Matrix2_times_26 (A : Matrix2) (B : Matrix26) : Matrix26 :=
  let '(a0, a1, a2, a3, a4, a5) := m26_row0 B in
  let '(b0, b1, b2, b3, b4, b5) := m26_row1 B in
  mkMatrix26
    (m00 A * a0 + m01 A * b0, m00 A * a1 + m01 A * b1, m00 A * a2 + m01 A * b2,
     m00 A * a3 + m01 A * b3, m00 A * a4 + m01 A * b4, m00 A * a5 + m01 A * b5)
    (m10 A * a0 + m11 A * b0, m10 A * a1 + m11 A * b1, m10 A * a2 + m11 A * b2,
     m10 A * a3 + m11 A * b3, m10 A * a4 + m11 A * b4, m10 A * a5 + m11 A * b5).

(** [M *= d] *)
Definition Matrix23_scale (M : Matrix23) (d : R) : Matrix23 :=
  let '(a0, a1, a2) := m23_row0 M in
  let '(b0, b1, b2) := m23_row1 M in
  mkMatrix23 (a0 * d, a1 * d, a2 * d) (b0 * d, b1 * d, b2 * d).

(** [assert(D.rows()==rows && D.cols()==cols)] on the destination of an
    output argument "assumed right size": past a failed assertion, or
    with assertions compiled out and a destination of another size,
    nothing is defined. *)
Definition assert_size (D_rows D_cols rows cols : nat) : outcome unit :=
  if Nat.eqb D_rows rows && Nat.eqb D_cols cols then Ret tt else Undefined.

(** [PinholeBase::calculateDpose(pn, d, Dpi_pn, Dpose)]; the destination
    [Dpose] is given by its size, and its new contents are returned. *)
Definition calculateDpose (pn : Point2 R) (d : R) (Dpi_pn : Matrix2)
    (Dpose_rows Dpose_cols : nat) : outcome Matrix26 :=
  (* optimized version of derivatives, see CalibratedCamera.nb *)
  let u := p2x pn in
  let v := p2y pn in
  let uv := u * v in
  let uu := u * u in
  let vv := v * v in
  let Dpn_pose : Matrix26 :=
    mkMatrix26 (uv, - s_one - uu, v, - d, s_zero, d * u)
               (s_one + vv, - uv, - u, s_zero, - d, d * v) in
  _ ← assert_size Dpose_rows Dpose_cols 2 6;
  Ret (Matrix2_times_26 Dpi_pn Dpn_pose).

(** [PinholeBase::calculateDpoint(pn, d, R, Dpi_pn, Dpoint)] *)
Definition calculateDpoint (pn : Point2 R) (d : R) (Rm : Matrix3)
    (Dpi_pn : Matrix2) (Dpoint_rows Dpoint_cols : nat) : outcome Matrix23 :=
  (* optimized version of derivatives, see CalibratedCamera.nb *)
  let u := p2x pn in
  let v := p2y pn in
  let Dpn_point : Matrix23 :=
    mkMatrix23
      (r00 Rm - u * r02 Rm, r10 Rm - u * r12 Rm, r20 Rm - u * r22 Rm)
      (r01 Rm - v * r02 Rm, r11 Rm - v * r12 Rm, r21 Rm - v * r22 Rm) in
  let Dpn_point := Matrix23_scale Dpn_point d in
  _ ← assert_size Dpoint_rows Dpoint_cols 2 3;
  Ret (Matrix2_times_23 Dpi_pn Dpn_point).

(** *** The vocabulary of the Jacobians' properties *)

(** A Jacobian applied to a tangent vector, and a 2x2 matrix applied to
    a 2D displacement. *)
Definition Matrix23_apply (J : Matrix23) (h : Point3 R) : Point2 R :=
  let '(a0, a1, a2) := m23_row0 J in
  let '(b0, b1, b2) := m23_row1 J in
  mkPoint2 (a0 * p3x h + a1 * p3y h + a2 * p3z h)
           (b0 * p3x h + b1 * p3y h + b2 * p3z h).

Definition Matrix26_apply (J : Matrix26) (omega t : Point3 R) : Point2 R :=
  let '(a0, a1, a2, a3, a4, a5) := m26_row0 J in
  let '(b0, b1, b2, b3, b4, b5) := m26_row1 J in
  mkPoint2
    (a0 * p3x omega + a1 * p3y omega + a2 * p3z omega
     + a3 * p3x t + a4 * p3y t + a5 * p3z t)
    (b0 * p3x omega + b1 * p3y omega + b2 * p3z omega
     + b3 * p3x t + b4 * p3y t + b5 * p3z t).

Definition Matrix2_apply (A : Matrix2) (p : Point2 R) : Point2 R :=
  mkPoint2 (m00 A * p2x p + m01 A * p2y p) (m10 A * p2x p + m11 A * p2y p).

Definition Point2_minus (p q : Point2 R) : Point2 R :=
  mkPoint2 (p2x p - p2x q) (p2y p - p2y q).

Definition Point2_scale (s : R) (p : Point2 R) : Point2 R :=
  mkPoint2 (s * p2x p) (s * p2y p).

(** [pn] is the projection in normalized coordinates of the camera-frame
    point [q], and [d] its inverse depth (the parameters [pn] and [d] of
    the two functions, as their comments name them). *)
Definition normalized (q : Point3 R) (pn : Point2 R) : Prop :=
  p2x pn * p3z q = p3x q /\ p2y pn * p3z q = p3y q.

Definition inverse_depth (q : Point3 R) (d : R) : Prop :=
  d * p3z q = s_one.

(** The camera-frame point [q] after the camera has moved by the twist
    (omega, t), rotation first, to first order: [q - omega x q - t]. *)
Definition moved_camera (q omega t : Point3 R) : Point3 R :=
  mkPoint3
    (p3x q - (p3y omega * p3z q - p3z omega * p3y q) - p3x t)
    (p3y q - (p3z omega * p3x q - p3x omega * p3z q) - p3y t)
    (p3z q - (p3x omega * p3y q - p3y omega * p3x q) - p3z t).

(** [R^T h]: a world displacement seen from the camera. *)
Definition unrotate (Rm : Matrix3) (h : Point3 R) : Point3 R :=
  mkPoint3 (r00 Rm * p3x h + r10 Rm * p3y h + r20 Rm * p3z h)
           (r01 Rm * p3x h + r11 Rm * p3y h + r21 Rm * p3z h)
           (r02 Rm * p3x h + r12 Rm * p3y h + r22 Rm * p3z h).

(** The camera-frame point [q] after the world point has moved by [h]. *)
Definition moved_point (Rm : Matrix3) (q h : Point3 R) : Point3 R :=
  let k := unrotate Rm h in
  mkPoint3 (p3x q + p3x k) (p3y q + p3y k) (p3z q + p3z k).

Definition Point3_opp (p : Point3 R) : Point3 R :=
  mkPoint3 (- p3x p) (- p3y p) (- p3z p).

Definition Point3_zero : Point3 R := mkPoint3 s_zero s_zero s_zero.

End Jacobians.

Arguments Matrix2 R : clear implicits.
Arguments Matrix23 R : clear implicits.
Arguments Matrix26 R : clear implicits.
Arguments Matrix3 R : clear implicits.
Arguments Row3 R : clear implicits.
Arguments Row6 R : clear implicits.

End Jacobians.

(* ===================================================================== *)
(** ** The numbers binary64 values stand for *)
(* ===================================================================== *)



(* ===================================================================== *)
(** ** Sample inputs *)
(* ===================================================================== *)

Module Samples.

(** A one-dimensional inequality constraint with dual key [k] whose
    unwhitened error is [err] whatever the values; it linearizes to the
    Jacobian factor [jf]. *)
Definition constraint {Values JacobianFactor HessianFactor : Type}
    (err : Values -> Vector) (k : Key) (jf : JacobianFactor)
  : NonlinearFactor Values JacobianFactor HessianFactor :=
  {| factor_linearize := fun _ => Ret (IsJacobian jf);
     cast_NoiseModelFactor := Some {| unwhitenedError := fun v => Ret (err v) |};
     cast_NonlinearConstraint := Some {| dualKey := k |} |}.

(** Constant-error constraints over trivial values. *)
Definition constant (e : double) (k : Key)
  : NonlinearFactor unit nat unit :=
  constraint (fun _ => [e]) k (N.to_nat k).

(** An error over a boolean "value": the first component is fixed, the
    second follows the value. *)
Definition two_component_error (e : double) (v : bool) : Vector :=
  [e; if v then D.of_Z 7 else D.of_Z (-7)].

Definition two_component (e : double) (k : Key)
  : NonlinearFactor bool nat unit :=
  constraint (two_component_error e) k 0%nat.

(** A dual assignment in which only constraint 1 is active. *)
Definition duals1 : VectorValues := {[ 1%N := [D.of_Z 3] ]}.

(** The camera at the origin looking down the world's +X axis: its axes
    x, y, z are the world's -Y, -Z, +X (the columns of the rotation). *)
Definition level_rotation {R : Type} `{Scalar R} : Camera.Rot3 R :=
  let o := s_zero in
  let i := s_one in
  let m := s_sub s_zero s_one in
  Camera.mkRot3 o o i
                m o o
                o m o.

Definition level_camera {R : Type} `{Scalar R} : Camera.CalibratedCamera R :=
  Camera.mkCalibratedCamera
    (Camera.mkPinholeBase
       (Camera.mkPose3 level_rotation (Camera.mkPoint3 s_zero s_zero s_zero))).

(** Points with binary64 and with rational coordinates. *)
Definition point_double (x y z : Z) : Camera.Point3 double :=
  Camera.mkPoint3 (D.of_Z x) (D.of_Z y) (D.of_Z z).

Definition point_Qc (x y z : Z) : Camera.Point3 Qc :=
  Camera.mkPoint3 (Q2Qc (inject_Z x)) (Q2Qc (inject_Z y)) (Q2Qc (inject_Z z)).

(** A two-pose dataset: poses are coordinate vectors retracted by
    addition, and the solver records what it was initialized with. *)
Definition SamplePose := Vector.
Definition SampleSolver : Type :=
  option (Pose2SLAM.Pose2Graph SamplePose unit * Pose2SLAM.Pose2Config SamplePose).

Definition sample_pose (x y theta : Z) : SamplePose :=
  [D.of_Z x; D.of_Z y; D.of_Z theta].

Definition sample_dataset (name : string) : string * option unit :=
  (name, None).

Definition sample_theta : Pose2SLAM.Pose2Config SamplePose :=
  [(0%N, sample_pose 0 0 0); (1%N, sample_pose 1 0 0)].

Definition sample_graph : Pose2SLAM.Pose2Graph SamplePose unit :=
  [Pose2SLAM.Constraint 0 1 (sample_pose 1 0 0) (Pose2SLAM.FromDataset tt)].

Definition sample_load2D (filename : string) (maxID : Z)
    (model : option unit) (addNoise : bool)
  : outcome (Pose2SLAM.Pose2Graph SamplePose unit
             * Pose2SLAM.Pose2Config SamplePose) :=
  Ret (sample_graph, sample_theta).

Definition sample_initialize (s : SampleSolver)
    (graph : Pose2SLAM.Pose2Graph SamplePose unit)
    (theta : Pose2SLAM.Pose2Config SamplePose) : SampleSolver :=
  Some (graph, theta).

Definition sample_retract (p : SamplePose) (d : Vector) : SamplePose :=
  zip_with D.add p d.

(** A correction vector cut into blocks of three, one per variable. *)
Fixpoint sample_split_from (j : N) (n : nat) (x : Vector) : Pose2SLAM.VectorConfig :=
  match n with
  | O => ∅
  | S n' => <[ j := take 3 x ]> (sample_split_from (N.succ j) n' (drop 3 x))
  end.

Definition sample_split (x : Vector) : Pose2SLAM.VectorConfig :=
  sample_split_from 0 (length x / 3) x.

End Samples.

(* ===================================================================== *)
(** ** More sample inputs *)
(* ===================================================================== *)

Module MoreSamples.

(** A factor that is neither a [NoiseModelFactor] nor a constraint, and
    linearizes to a Hessian factor. *)
Definition not_a_constraint : NonlinearFactor unit nat unit :=
  {| factor_linearize := fun _ => Ret (IsHessian tt);
     cast_NoiseModelFactor := None;
     cast_NonlinearConstraint := None |}.

(** The dual map of [Samples.duals1] with another multiplier. *)
Definition duals1' : VectorValues := {[ 1%N := [D.of_Z (-3); D.of_Z 8] ]}.

Definition point2_Qc (x y : Z) : Camera.Point2 Qc :=
  Camera.mkPoint2 (Q2Qc (inject_Z x)) (Q2Qc (inject_Z y)).

(** The calibration of a calibrated camera: the identity. *)
Definition identity2 : Jacobians.Matrix2 Qc :=
  Jacobians.mkMatrix2 (Q2Qc 1) (Q2Qc 0) (Q2Qc 0) (Q2Qc 1).

(** A dataset whose file cannot be read, and one without poses. *)
Definition failing_load2D (filename : string) (maxID : Z)
    (model : option unit) (addNoise : bool)
  : outcome (Pose2SLAM.Pose2Graph Samples.SamplePose unit
             * Pose2SLAM.Pose2Config Samples.SamplePose) :=
  Throw (RuntimeError filename).

Definition empty_load2D (filename : string) (maxID : Z)
    (model : option unit) (addNoise : bool)
  : outcome (Pose2SLAM.Pose2Graph Samples.SamplePose unit
             * Pose2SLAM.Pose2Config Samples.SamplePose) :=
  Ret ([], []).

End MoreSamples.

(* ===================================================================== *)
(** ** Sample inputs in binary64 *)
(* ===================================================================== *)

Module Binary64Samples.




End Binary64Samples.

(* ===================================================================== *)
(** * Properties *)
(* ===================================================================== *)

(** ** binary64 comparisons *)

Lemma SFcompare_swap (a b : double) :
  SFcompare b a = CompOpp <$> SFcompare a b.
Proof.
  destruct a as [sa|sa| |sa ma ea], b as [sb|sb| |sb mb eb]; simpl;
    try reflexivity;
    try (destruct sa; reflexivity);
    try (destruct sb; reflexivity);
    try (destruct sa, sb; reflexivity).
  destruct sa, sb; simpl; try reflexivity;
    rewrite (Z.compare_antisym ea eb);
    destruct (ea ?= eb)%Z; simpl; try reflexivity;
    rewrite (Pos.compare_cont_antisym ma mb Eq); reflexivity.
Qed.

Lemma le_not_gt (a b : double) : D.le a b = true -> D.gt a b = false.
Proof.
  unfold D.le, D.gt, SFleb, SFltb. rewrite (SFcompare_swap a b).
  destruct (SFcompare a b) as [[]|]; simpl; congruence.
Qed.

Lemma SFcompare_ordered (a b : double) :
  D.is_nan a = false -> D.is_nan b = false -> is_Some (SFcompare a b).
Proof.
  destruct a, b; simpl; intros; try discriminate; eauto.
Qed.

Lemma not_le_gt (a b : double) :
  D.is_nan a = false -> D.is_nan b = false ->
  D.le a b = false -> D.gt a b = true.
Proof.
  intros Ha Hb. destruct (SFcompare_ordered a b Ha Hb) as [c Hc].
  unfold D.le, D.gt, SFleb, SFltb. rewrite (SFcompare_swap a b), Hc.
  destruct c; simpl; congruence.
Qed.

Lemma fabs_is_nan (a : double) : D.is_nan (D.fabs a) = D.is_nan a.
Proof. destruct a; reflexivity. Qed.

(** ** checkFeasibilityAndComplimentary *)

Section CheckFacts.

Context {Values JacobianFactor HessianFactor : Type}.

#[local] Abbreviation Factor := (NonlinearFactor Values JacobianFactor HessianFactor).
#[local] Abbreviation Graph := (list (NonlinearFactor Values JacobianFactor HessianFactor)).

Implicit Types (graph pre post rest : Graph) (f factor : Factor).
Implicit Types (values : Values) (duals : VectorValues) (tol e : double) (k : Key).

(** The loop body reads the values through [constraint_error] alone. *)
Lemma check_cons_error f rest values duals tol :
  checkFeasibilityAndComplimentary (f :: rest) values duals tol =
  error0 ← constraint_error f values;
  if D.gt error0 tol then Ret false
  else
    constraint ← deref (cast_NonlinearConstraint f);
    if negb (VectorValues_exists duals (dualKey constraint))
    then checkFeasibilityAndComplimentary rest values duals tol
    else
      if D.gt (D.fabs error0) tol then Ret false
      else checkFeasibilityAndComplimentary rest values duals tol.
Proof.
  unfold constraint_error. simpl.
  destruct (cast_NoiseModelFactor f) as [nm|]; simpl; [|reflexivity].
  destruct (unwhitenedError nm values) as [err| |]; simpl; try reflexivity.
Qed.

Lemma check_cons f rest values duals tol e k :
  inequality_factor f values e k ->
  checkFeasibilityAndComplimentary (f :: rest) values duals tol =
  if satisfied duals tol e k
  then checkFeasibilityAndComplimentary rest values duals tol
  else Ret false.
Proof.
  intros [He Hk]. rewrite check_cons_error, He. simpl.
  unfold satisfied.
  destruct (cast_NonlinearConstraint f) as [c|]; simpl in Hk; [|discriminate].
  injection Hk as Hk; subst k.
  destruct (D.gt e tol); simpl; [reflexivity|].
  destruct (VectorValues_exists duals (dualKey c)); simpl; [|reflexivity].
  destruct (D.gt (D.fabs e) tol); reflexivity.
Qed.

(** Visiting [pre ++ post] is visiting [pre], then [post] unless [pre]
    already returned. *)
Lemma check_app pre post values duals tol :
  checkFeasibilityAndComplimentary (pre ++ post) values duals tol =
  checkFeasibilityAndComplimentary pre values duals tol ≫= fun b : bool =>
  if b then checkFeasibilityAndComplimentary post values duals tol
  else Ret false.
Proof.
  induction pre as [|f pre IH]; [reflexivity|].
  rewrite <- app_comm_cons, !check_cons_error.
  destruct (constraint_error f values) as [e0| |]; simpl; try reflexivity.
  destruct (D.gt e0 tol); simpl; [reflexivity|].
  destruct (cast_NonlinearConstraint f) as [c|]; simpl; [|reflexivity].
  destruct (negb _); simpl; [exact IH|].
  destruct (D.gt (D.fabs e0) tol); simpl; [reflexivity|exact IH].
Qed.

(** On an inequality graph the check returns a boolean. *)
Lemma check_inequality_graph graph values duals tol :
  inequality_graph graph values ->
  exists b, checkFeasibilityAndComplimentary graph values duals tol = Ret b.
Proof.
  induction 1 as [|f graph (e & k & Hf) _ IH]; [by exists true|].
  rewrite (check_cons _ _ _ _ _ _ _ Hf).
  destruct (satisfied duals tol e k); [exact IH|by exists false].
Qed.

Lemma check_false_intro graph values duals tol f e k :
  inequality_graph graph values ->
  In f graph -> inequality_factor f values e k ->
  satisfied duals tol e k = false ->
  checkFeasibilityAndComplimentary graph values duals tol = Ret false.
Proof.
  intros Hg Hin Hf Hs. induction Hg as [|g graph (e' & k' & Hg') _ IH].
  - destruct Hin.
  - rewrite (check_cons _ _ _ _ _ _ _ Hg').
    destruct (satisfied duals tol e' k') eqn:Hs'; [|reflexivity].
    destruct Hin as [->|Hin]; [|by apply IH].
    destruct Hf as [He Hk], Hg' as [He' Hk'].
    rewrite He in He'. rewrite Hk in Hk'. congruence.
Qed.

Lemma check_true_intro graph values duals tol :
  inequality_graph graph values ->
  (forall f e k, In f graph -> inequality_factor f values e k ->
                 satisfied duals tol e k = true) ->
  checkFeasibilityAndComplimentary graph values duals tol = Ret true.
Proof.
  intros Hg. induction Hg as [|g graph (e & k & Hg') _ IH]; intros Hall.
  - reflexivity.
  - rewrite (check_cons _ _ _ _ _ _ _ Hg').
    rewrite (Hall g e k (or_introl eq_refl) Hg').
    apply IH. intros f e' k' Hin. apply Hall. by right.
Qed.

(** C10: on a graph without factors the check returns [true], whatever
    the values, the dual map and the tolerance (negative, infinite or
    NaN included): the loop body never runs. *)
Theorem check_empty_graph values duals tol :
  checkFeasibilityAndComplimentary ([] : Graph) values duals tol = Ret true.
Proof. intros. simpl. reflexivity. Qed.

(** C1: on an inequality factor graph the check returns [false] as soon
    as one constraint's unwhitened error (its component 0, the one the
    code reads) exceeds [tol]; it returns [true] when the dual map is
    empty and every constraint's error is [<= tol]; and in every case it
    returns a boolean: it neither throws nor leaves defined behaviour. *)
Theorem check_feasibility graph values duals tol :
  inequality_graph graph values ->
  (forall f e, In f graph -> constraint_error f values = Ret e ->
     D.gt e tol = true ->
     checkFeasibilityAndComplimentary graph values duals tol = Ret false) /\
  (duals = ∅ ->
   (forall f e, In f graph -> constraint_error f values = Ret e ->
      D.le e tol = true) ->
   checkFeasibilityAndComplimentary graph values duals tol = Ret true) /\
  (exists b, checkFeasibilityAndComplimentary graph values duals tol = Ret b).
Proof.
  intros Hg. split; [|split].
  - intros f e Hin He Hgt.
    destruct (proj1 (List.Forall_forall _ _) Hg f Hin) as (e' & k & Hf).
    assert (e' = e) as -> by (destruct Hf as [He' _]; congruence).
    apply (check_false_intro _ _ _ _ f e k Hg Hin Hf).
    unfold satisfied. by rewrite Hgt.
  - intros -> Hle. apply check_true_intro; [exact Hg|].
    intros f e k Hin Hf. unfold satisfied, VectorValues_exists.
    rewrite lookup_empty. simpl.
    rewrite (le_not_gt _ _ (Hle f e Hin (proj1 Hf))). reflexivity.
  - by apply check_inequality_graph.
Qed.

(** X15: what the code does hold of complementarity.  A constraint whose
    dual key is absent from the dual map is only tested for primal
    feasibility, and when it passes that test it has no influence on the
    result; for a constraint of the graph whose dual key is present the
    check returns [false] whenever the magnitude of its [error[0]] is
    [> tol], which, when neither the error nor the tolerance is NaN, is
    whenever the magnitude is not [<= tol]. *)
Theorem check_complementarity graph values duals tol f e k :
  inequality_factor f values e k ->
  (VectorValues_exists duals k = false ->
     (forall rest,
        checkFeasibilityAndComplimentary (f :: rest) values duals tol =
        if D.gt e tol then Ret false
        else checkFeasibilityAndComplimentary rest values duals tol) /\
     (D.gt e tol = false -> forall pre post,
        checkFeasibilityAndComplimentary (pre ++ f :: post) values duals tol =
        checkFeasibilityAndComplimentary (pre ++ post) values duals tol)) /\
  (VectorValues_exists duals k = true ->
   inequality_graph graph values -> In f graph ->
     (D.gt (D.fabs e) tol = true ->
        checkFeasibilityAndComplimentary graph values duals tol = Ret false) /\
     (D.is_nan e = false -> D.is_nan tol = false ->
      D.le (D.fabs e) tol = false ->
        checkFeasibilityAndComplimentary graph values duals tol = Ret false)).
Proof.
  intros Hf. split.
  - intros Hk. split.
    + intros rest. rewrite (check_cons _ _ _ _ _ _ _ Hf).
      unfold satisfied. rewrite Hk. by destruct (D.gt e tol).
    + intros Hgt pre post. rewrite !check_app.
      rewrite (check_cons _ _ _ _ _ _ _ Hf).
      unfold satisfied. by rewrite Hk, Hgt.
  - intros Hk Hg Hin.
    assert (D.gt (D.fabs e) tol = true ->
            checkFeasibilityAndComplimentary graph values duals tol = Ret false)
      as Hactive.
    { intros Hgt. apply (check_false_intro _ _ _ _ f e k Hg Hin Hf).
      unfold satisfied. rewrite Hk, Hgt. by destruct (D.gt e tol). }
    split; [exact Hactive|].
    intros He Htol Hle. apply Hactive, not_le_gt; [|exact Htol|exact Hle].
    by rewrite fabs_is_nan.
Qed.

(** C9: the check reads the values only through component 0 of each
    constraint's unwhitened error: two assignments under which every
    factor of the graph has the same component 0 get the same answer. *)
Theorem check_first_component graph values1 values2 duals tol :
  (forall f, In f graph ->
     constraint_error f values1 = constraint_error f values2) ->
  checkFeasibilityAndComplimentary graph values1 duals tol =
  checkFeasibilityAndComplimentary graph values2 duals tol.
Proof.
  induction graph as [|f graph IH]; intros Hsame; [reflexivity|].
  rewrite !check_cons_error, (Hsame f (or_introl eq_refl)).
  rewrite IH; [reflexivity|].
  intros g Hin. apply Hsame. by right.
Qed.

(** ** linearize *)

Lemma linearize_loop_spec graph values :
  Forall (fun f => exists jf k, linearizes_to f values jf k) graph ->
  forall acc, exists lg,
    linearize_loop graph values acc = Ret (acc ++ lg) /\
    Forall2 (fun f l => linearizes_to f values (li_jacobian l) (li_dualKey l))
      graph lg.
Proof.
  induction 1 as [|f graph (jf & k & Hf) _ IH]; intros acc.
  - exists []. split; [by rewrite app_nil_r|constructor].
  - destruct (IH (add acc {| li_jacobian := jf; li_dualKey := k |}))
      as (lg & Hloop & Hall).
    exists ({| li_jacobian := jf; li_dualKey := k |} :: lg). split.
    + simpl. destruct Hf as [Hlin Hk]. rewrite Hlin. simpl.
      destruct (cast_NonlinearConstraint f) as [c|]; simpl in Hk; [|discriminate].
      injection Hk as Hk. simpl. rewrite Hk, Hloop.
      unfold add. by rewrite <- app_assoc.
    + constructor; [exact Hf|exact Hall].
Qed.

(** C6: linearizing an inequality graph at [values] gives one linear
    inequality per factor, in the order of the factors, each made of its
    factor's Jacobian linearization at [values] and its factor's dual key. *)
Theorem linearize_spec graph values :
  Forall (fun f => exists jf k, linearizes_to f values jf k) graph ->
  exists linearGraph,
    linearize graph values = Ret linearGraph /\
    length linearGraph = length graph /\
    Forall2 (fun f l => linearizes_to f values (li_jacobian l) (li_dualKey l))
      graph linearGraph.
Proof.
  intros Hg. destruct (linearize_loop_spec graph values Hg []) as (lg & Hloop & Hall).
  exists lg. split; [exact Hloop|]. split; [|exact Hall].
  symmetry. eapply Forall2_length, Hall.
Qed.

End CheckFacts.

(** *** The check on sample graphs *)

#[local] Ltac inequality_graph_tac :=
  repeat constructor; eexists _, _; split; reflexivity.

(** An infeasible graph (error 2 against tolerance 1) is reported as
    [false]; a feasible one with no duals passes. *)
Lemma check_feasibility_witness :
  inequality_graph
    [Samples.constant (D.of_Z 0) 0; Samples.constant (D.of_Z 2) 1] tt /\
  checkFeasibilityAndComplimentary
    [Samples.constant (D.of_Z 0) 0; Samples.constant (D.of_Z 2) 1]
    tt Samples.duals1 (D.of_Z 1) = Ret false /\
  checkFeasibilityAndComplimentary
    [Samples.constant (D.of_Z (-1)) 0; Samples.constant (D.of_Z 1) 1]
    tt ∅ (D.of_Z 1) = Ret true.
Proof.
  split; [inequality_graph_tac|]. split.
  - refine (proj1 (check_feasibility _ tt Samples.duals1 (D.of_Z 1) _)
              (Samples.constant (D.of_Z 2) 1) (D.of_Z 2) _ _ _).
    + inequality_graph_tac.
    + right; left; reflexivity.
    + reflexivity.
    + reflexivity.
  - refine (proj1 (proj2 (check_feasibility _ tt ∅ (D.of_Z 1) _)) eq_refl _).
    + inequality_graph_tac.
    + intros f e [<-|[<-|[]]] [= <-]; reflexivity.
Defined.

(** C3: the code at the input where it breaks the claim and its own
    comments ("errors of active constraints need to be 0.0", "for active
    constraint, the error should be 0.0").  The constraint's dual key is
    present and its error is NaN, so its magnitude is not [<= tol]; both
    [>] tests are false and the check returns [true]. *)
Lemma check_complementarity_nan :
  inequality_graph [Samples.constant D.nan 1] tt /\
  inequality_factor (Samples.constant D.nan 1) tt D.nan 1 /\
  VectorValues_exists Samples.duals1 1 = true /\
  D.le (D.fabs D.nan) (D.of_Z 1) = false /\
  checkFeasibilityAndComplimentary
    [Samples.constant D.nan 1] tt Samples.duals1 (D.of_Z 1) = Ret true.
Proof.
  split; [inequality_graph_tac|]. split; [split; reflexivity|].
  repeat split; reflexivity.
Qed.

(** An inactive feasible constraint drops out of the check; an active
    constraint 5 away from binding makes it fail. *)
Lemma check_complementarity_witness :
  checkFeasibilityAndComplimentary
    [Samples.constant (D.of_Z (-5)) 0; Samples.constant (D.of_Z 0) 1]
    tt Samples.duals1 (D.of_Z 1) =
  checkFeasibilityAndComplimentary
    [Samples.constant (D.of_Z 0) 1] tt Samples.duals1 (D.of_Z 1) /\
  checkFeasibilityAndComplimentary
    [Samples.constant (D.of_Z 0) 0; Samples.constant (D.of_Z (-5)) 1]
    tt Samples.duals1 (D.of_Z 1) = Ret false.
Proof.
  split.
  - refine (proj2 (proj1 (check_complementarity [] tt Samples.duals1 (D.of_Z 1)
              (Samples.constant (D.of_Z (-5)) 0) (D.of_Z (-5)) 0 _) _) _ [] _).
    + split; reflexivity.
    + reflexivity.
    + reflexivity.
  - refine (proj2 (proj2 (check_complementarity _ tt Samples.duals1 (D.of_Z 1)
              (Samples.constant (D.of_Z (-5)) 1) (D.of_Z (-5)) 1 _) _ _ _)
              _ _ _).
    + split; reflexivity.
    + reflexivity.
    + inequality_graph_tac.
    + right; left; reflexivity.
    + reflexivity.
    + reflexivity.
    + reflexivity.
Defined.

(** An exception thrown while a factor's error is evaluated is not an
    infeasibility: it leaves the check as it is. *)
Example check_exception_propagates :
  checkFeasibilityAndComplimentary (JacobianFactor:=nat) (HessianFactor:=unit)
    [ {| factor_linearize := fun _ => Ret (IsJacobian 0%nat);
         cast_NoiseModelFactor :=
           Some {| unwhitenedError := fun _ : unit =>
                                        Throw (ValuesKeyDoesNotExist 5) |};
         cast_NonlinearConstraint := Some {| dualKey := 0 |} |} ]
    tt ∅ (D.of_Z 1)
  = Throw (ValuesKeyDoesNotExist 5).
Proof. reflexivity. Qed.

(** Two assignments that differ in the second error component only. *)
Lemma check_first_component_witness :
  Samples.two_component_error (D.of_Z 0) true <>
  Samples.two_component_error (D.of_Z 0) false /\
  checkFeasibilityAndComplimentary
    [Samples.two_component (D.of_Z 0) 1] true Samples.duals1 (D.of_Z 1) =
  checkFeasibilityAndComplimentary
    [Samples.two_component (D.of_Z 0) 1] false Samples.duals1 (D.of_Z 1).
Proof.
  split; [discriminate|].
  apply (check_first_component _ true false).
  intros f [<-|[]]. reflexivity.
Defined.

(** A two-factor graph linearizes to two inequalities with the factors'
    dual keys, in order. *)
Lemma linearize_spec_witness :
  exists linearGraph,
    linearize [Samples.constant (D.of_Z 0) 4; Samples.constant (D.of_Z 2) 7] tt
      = Ret linearGraph /\
    length linearGraph = 2%nat /\
    Forall2 (fun f l => linearizes_to f tt (li_jacobian l) (li_dualKey l))
      [Samples.constant (D.of_Z 0) 4; Samples.constant (D.of_Z 2) 7] linearGraph.
Proof.
  apply (linearize_spec
           [Samples.constant (D.of_Z 0) 4; Samples.constant (D.of_Z 2) 7] tt).
  repeat constructor; eexists _, _; split; reflexivity.
Defined.

(** The same graph, evaluated. *)
Example linearize_sample :
  linearize [Samples.constant (D.of_Z 0) 4; Samples.constant (D.of_Z 2) 7] tt =
  Ret [ {| li_jacobian := 4%nat; li_dualKey := 4%N |};
        {| li_jacobian := 7%nat; li_dualKey := 7%N |} ].
Proof. reflexivity. Qed.

(** A factor that is not a constraint, or that linearizes to a Hessian
    factor, leaves [linearize] without defined behaviour. *)
Example linearize_bad_cast :
  linearize (Values:=unit) (JacobianFactor:=nat) (HessianFactor:=unit)
    [ {| factor_linearize := fun _ => Ret (IsHessian tt);
         cast_NoiseModelFactor := None;
         cast_NonlinearConstraint := Some {| dualKey := 0 |} |} ] tt = Undefined.
Proof. reflexivity. Qed.

(** ** CalibratedCamera *)

#[global] Instance double_ScalarOrder : ScalarOrder double.
Proof.
  intros a b. simpl. unfold D.lt, D.le, SFltb, SFleb.
  rewrite (SFcompare_swap a b).
  destruct (SFcompare a b) as [[]|]; simpl; congruence.
Qed.

#[global] Instance Qc_ScalarOrder : ScalarOrder Qc.
Proof. intros a b. simpl. by destruct (Qle_bool b a). Qed.

Section CameraFacts.

Import Camera.

Lemma project_positive {R : Type} `{ScalarOrder R}
    (camera : CalibratedCamera R) (point : Point3 R) :
  s_lt s_zero (depth camera point) = true ->
  project camera point =
  Ret (project_to_camera (transform_to (pose camera) point)).
Proof.
  unfold project, depth. intros Hpos. by rewrite (s_lt_not_le _ _ Hpos).
Qed.

(** C2: a point whose depth in camera coordinates is non-positive makes
    [project] throw the Cheirality exception, so no 2D point is returned
    for it; a point of positive depth is projected and nothing is
    thrown. *)
Theorem project_cheirality {R : Type} `{ScalarOrder R}
    (camera : CalibratedCamera R) (point : Point3 R) :
  (s_le (depth camera point) s_zero = true ->
     project camera point = Throw CheiralityException /\
     forall p, project camera point <> Ret p) /\
  (s_lt s_zero (depth camera point) = true ->
     project camera point =
     Ret (project_to_camera (transform_to (pose camera) point))).
Proof.
  split; [|apply project_positive].
  unfold project, depth. intros ->. split; [reflexivity|discriminate].
Qed.

Lemma Qc_positive_nonzero (z : Qc) :
  s_lt s_zero z = true -> z <> Q2Qc 0.
Proof.
  simpl. intros Hlt ->. by compute in Hlt.
Qed.

Lemma backproject_project_to_camera (P : Point3 Qc) :
  p3z P <> Q2Qc 0 ->
  backproject_from_camera (project_to_camera P) (p3z P) = P.
Proof.
  intros Hz. destruct P as [x y z]. simpl in *.
  unfold backproject_from_camera, project_to_camera. simpl.
  f_equal; field; exact Hz.
Qed.

Lemma transform_from_to (p : Pose3 Qc) (point : Point3 Qc) :
  orthonormal (rotation p) ->
  transform_from p (transform_to p point) = point.
Proof.
  destruct p as [[a00 a01 a02 a10 a11 a12 a20 a21 a22] [tx ty tz]].
  destruct point as [x y z].
  unfold orthonormal, transform_from, transform_to. simpl.
  intros (H00 & H11 & H22 & H01 & H02 & H12).
  f_equal.
  - transitivity ((a00 * a00 + a01 * a01 + a02 * a02) * (x - tx)
                  + (a00 * a10 + a01 * a11 + a02 * a12) * (y - ty)
                  + (a00 * a20 + a01 * a21 + a02 * a22) * (z - tz) + tx)%Qc;
      [ring|rewrite H00, H01, H02; ring].
  - transitivity ((a00 * a10 + a01 * a11 + a02 * a12) * (x - tx)
                  + (a10 * a10 + a11 * a11 + a12 * a12) * (y - ty)
                  + (a10 * a20 + a11 * a21 + a12 * a22) * (z - tz) + ty)%Qc;
      [ring|rewrite H01, H11, H12; ring].
  - transitivity ((a00 * a20 + a01 * a21 + a02 * a22) * (x - tx)
                  + (a10 * a20 + a11 * a21 + a12 * a22) * (y - ty)
                  + (a20 * a20 + a21 * a21 + a22 * a22) * (z - tz) + tz)%Qc;
      [ring|rewrite H02, H12, H22; ring].
Qed.

(** The round trip in exact arithmetic: for a point of positive depth,
    [project] returns a 2D point whose backprojection at the point's
    depth is the point again: in camera coordinates for
    [backproject_from_camera], and in world coordinates for the camera's
    [backproject] when the pose's rotation is orthonormal.  The inverse
    is a closed formula. *)
Theorem backproject_project (camera : CalibratedCamera Qc) (point : Point3 Qc) :
  s_lt s_zero (depth camera point) = true ->
  exists pn,
    project camera point = Ret pn /\
    backproject_from_camera pn (depth camera point) =
      transform_to (pose camera) point /\
    (orthonormal (rotation (pose camera)) ->
     backproject camera pn (depth camera point) = point).
Proof.
  intros Hpos.
  exists (project_to_camera (transform_to (pose camera) point)).
  split; [exact (project_positive camera point Hpos)|].
  assert (backproject_from_camera
            (project_to_camera (transform_to (pose camera) point))
            (depth camera point) = transform_to (pose camera) point) as Hcam
    by (apply backproject_project_to_camera, Qc_positive_nonzero, Hpos).
  split; [exact Hcam|].
  intros Horth. unfold backproject. rewrite Hcam.
  by apply transform_from_to.
Qed.

(** *** The camera on sample points *)

(** A point behind the level camera is refused, a point in front of it
    is projected. *)
Lemma project_cheirality_witness :
  s_le (depth Samples.level_camera (Samples.point_double (-10) 2 4)) s_zero
    = true /\
  s_lt s_zero (depth Samples.level_camera (Samples.point_double 10 2 4))
    = true /\
  project Samples.level_camera (Samples.point_double (-10) 2 4)
    = Throw CheiralityException /\
  project Samples.level_camera (Samples.point_double 10 2 4)
    = Ret (project_to_camera
             (transform_to (pose Samples.level_camera)
                (Samples.point_double 10 2 4))).
Proof.
  split; [reflexivity|]. split; [reflexivity|]. split.
  - exact (proj1 (proj1 (project_cheirality Samples.level_camera
                           (Samples.point_double (-10) 2 4)) eq_refl)).
  - exact (proj2 (project_cheirality Samples.level_camera
                    (Samples.point_double 10 2 4)) eq_refl).
Defined.

(** The specification's end-to-end example: the point (10, 0, 0) seen
    from the level camera projects to the principal point. *)
Example project_principal_point :
  project Samples.level_camera (Samples.point_Qc 10 0 0)
    = Ret (mkPoint2 (Q2Qc 0) (Q2Qc 0)).
Proof.
  rewrite project_positive by reflexivity.
  unfold project_to_camera. f_equal. f_equal; apply Qc_is_canon; reflexivity.
Qed.

(** A point on the camera centre's plane (depth 0) is refused as well. *)
Example project_depth_zero :
  project Samples.level_camera (Samples.point_double 0 1 1)
    = Throw CheiralityException.
Proof. reflexivity. Qed.

Lemma backproject_project_witness :
  s_lt s_zero (depth Samples.level_camera (Samples.point_Qc 10 2 4)) = true /\
  orthonormal (rotation (pose (R:=Qc) Samples.level_camera)) /\
  exists pn,
    project Samples.level_camera (Samples.point_Qc 10 2 4) = Ret pn /\
    backproject Samples.level_camera pn
      (depth Samples.level_camera (Samples.point_Qc 10 2 4))
    = Samples.point_Qc 10 2 4.
Proof.
  assert (s_lt s_zero (depth Samples.level_camera (Samples.point_Qc 10 2 4))
          = true) as Hpos by reflexivity.
  assert (orthonormal (rotation (pose (R:=Qc) Samples.level_camera))) as Horth
    by (repeat split; apply Qc_is_canon; reflexivity).
  destruct (backproject_project Samples.level_camera (Samples.point_Qc 10 2 4)
              Hpos) as (pn & Hp & _ & Hw).
  split; [exact Hpos|]. split; [exact Horth|].
  exists pn. split; [exact Hp|exact (Hw Horth)].
Defined.

(** In binary64 the same round trip is exact only up to rounding:
    1/49 * 49 is not 1. *)
Example backproject_project_binary64 :
  backproject_from_camera
    (project_to_camera (Samples.point_double 1 0 49)) (D.of_Z 49)
  = mkPoint3 (D.sub (D.of_Z 1) (SFulp prec emax (D.div (D.of_Z 1) (D.of_Z 2))))
             (D.of_Z 0) (D.of_Z 49).
Proof. vm_compute. reflexivity. Qed.

(** *** range *)

Section Range.

Context {R : Type} `{Scalar R}.
Variable Pose3_range_point :
  Pose3 R -> Point3 R -> OptionalJacobian R -> OptionalJacobian R -> RangeResult R.
Variable Pose3_range_pose :
  Pose3 R -> Pose3 R -> OptionalJacobian R -> OptionalJacobian R -> RangeResult R.

(** C8: whatever the target (a point, a pose, another camera) and
    whichever Jacobians are asked for, the camera's [range] returns what
    the range computation of its pose returns on the same target, the
    distance and the Jacobians alike. *)
Theorem range_delegates (camera : CalibratedCamera R) (target : RangeTarget R)
    (H1 H2 : OptionalJacobian R) :
  range Pose3_range_point Pose3_range_pose camera target H1 H2 =
  range_spec Pose3_range_point Pose3_range_pose camera target H1 H2.
Proof.
  destruct camera as [[p]]. destruct target as [point|q|[[q]]]; reflexivity.
Qed.

End Range.

End CameraFacts.

(** ** Pose2SLAMOptimizer *)

Section OptimizerFacts.

Import Pose2SLAM.

Context {Pose2 SharedDiagonal Solver : Type}.
Variable dataset : string -> string * option SharedDiagonal.
Variable load2D :
  string -> Z -> option SharedDiagonal -> bool ->
  outcome (Pose2Graph Pose2 SharedDiagonal * Pose2Config Pose2).
Variable solver_default : Solver.
Variable solver_initialize :
  Solver -> Pose2Graph Pose2 SharedDiagonal -> Pose2Config Pose2 -> Solver.
Variable retract : Pose2 -> Vector -> Pose2.

(** C7: when the dataset loads a graph and a non-empty initial
    estimate, the constructed optimizer's graph is the loaded factors
    followed by one prior, on the first variable of the estimate at its
    initial value, with the unit noise model of dimension 3; and the
    solver was initialized with that graph, prior included. *)
Theorem constructor_adds_prior (dataset_name path filename : string)
    (noiseModel : option SharedDiagonal)
    (graph : Pose2Graph Pose2 SharedDiagonal)
    (k : Key) (x : Pose2) (rest : Pose2Config Pose2) :
  dataset dataset_name = (filename, noiseModel) ->
  load2D filename 0 noiseModel false = Ret (graph, (k, x) :: rest) ->
  exists o,
    Pose2SLAMOptimizer_new dataset load2D solver_default solver_initialize
      dataset_name path = Ret o /\
    graph_ o = graph ++ [Prior k x (Unit_Create 3)] /\
    theta_ o = (k, x) :: rest /\
    solver_ o = solver_initialize solver_default (graph_ o) (theta_ o).
Proof.
  intros Hdataset Hload. unfold Pose2SLAMOptimizer_new.
  rewrite Hdataset, Hload. simpl.
  eexists. split; [reflexivity|]. simpl. auto.
Qed.

(** An empty initial estimate leaves the constructor without defined
    behaviour: [theta_->begin()] is dereferenced. *)
Lemma constructor_empty_estimate (dataset_name path filename : string)
    (noiseModel : option SharedDiagonal)
    (graph : Pose2Graph Pose2 SharedDiagonal) :
  dataset dataset_name = (filename, noiseModel) ->
  load2D filename 0 noiseModel false = Ret (graph, []) ->
  Pose2SLAMOptimizer_new dataset load2D solver_default solver_initialize
    dataset_name path = Undefined.
Proof.
  intros Hdataset Hload. unfold Pose2SLAMOptimizer_new.
  by rewrite Hdataset, Hload.
Qed.

Lemma expmap_empty (theta : Pose2Config Pose2) : expmap retract theta ∅ = theta.
Proof.
  unfold expmap. induction theta as [|kv theta IH]; [reflexivity|].
  simpl. rewrite lookup_empty. by rewrite IH.
Qed.

Lemma retract_update_empty
    (o : Pose2SLAMOptimizer Pose2 SharedDiagonal Solver) :
  retract_update retract ∅ o = o.
Proof. unfold retract_update. rewrite expmap_empty. by destruct o. Qed.

(** C4, as the code has it: whatever the overload
    [update(const VectorConfig&)] does, [update] never reads its
    correction and hands it the empty tangent map, and
    [updatePreconditioned] never reads its correction either and calls
    [update] on an empty vector, so two corrections give the same next
    state; when the overload retracts the tangent map into the estimate,
    both entry points leave the optimizer as it was. *)
Theorem update_ignores_correction
    (update_VectorConfig :
       VectorConfig -> Pose2SLAMOptimizer Pose2 SharedDiagonal Solver ->
       Pose2SLAMOptimizer Pose2 SharedDiagonal Solver)
    (x x' y : Vector) (o : Pose2SLAMOptimizer Pose2 SharedDiagonal Solver) :
  update update_VectorConfig x o = update_VectorConfig ∅ o /\
  update update_VectorConfig x o = update update_VectorConfig x' o /\
  updatePreconditioned update_VectorConfig y o = update update_VectorConfig [] o /\
  update (retract_update retract) x o = o /\
  updatePreconditioned (retract_update retract) y o = o.
Proof.
  repeat split; try reflexivity;
    unfold updatePreconditioned, update; apply retract_update_empty.
Qed.

End OptimizerFacts.

(** *** The optimizer on the sample dataset *)

Lemma constructor_adds_prior_witness :
  exists o,
    Pose2SLAM.Pose2SLAMOptimizer_new Samples.sample_dataset Samples.sample_load2D
      None Samples.sample_initialize "w100" "" = Ret o /\
    Pose2SLAM.graph_ o =
      Samples.sample_graph
      ++ [Pose2SLAM.Prior 0 (Samples.sample_pose 0 0 0) (Pose2SLAM.Unit_Create 3)] /\
    Pose2SLAM.theta_ o = Samples.sample_theta /\
    Pose2SLAM.solver_ o =
      Samples.sample_initialize None (Pose2SLAM.graph_ o) (Pose2SLAM.theta_ o).
Proof.
  exact (constructor_adds_prior Samples.sample_dataset Samples.sample_load2D
           None Samples.sample_initialize "w100" "" "w100" None
           Samples.sample_graph 0%N (Samples.sample_pose 0 0 0)
           [(1%N, Samples.sample_pose 1 0 0)] eq_refl eq_refl).
Defined.

(** The correction [1; 0; 0; 0; 0; 0] moves the first pose of the sample
    estimate when it is retracted as the specification asks; [update]
    leaves the estimate where it was. *)
Example update_sample :
  let o := Pose2SLAM.mkOptimizer Samples.sample_graph Samples.sample_theta
             (None : Samples.SampleSolver) in
  let x := [D.of_Z 1; D.of_Z 0; D.of_Z 0; D.of_Z 0; D.of_Z 0; D.of_Z 0] in
  Pose2SLAM.theta_
    (Pose2SLAM.update_spec Samples.sample_retract Samples.sample_split x o)
  = [(0%N, Samples.sample_pose 1 0 0); (1%N, Samples.sample_pose 1 0 0)] /\
  Pose2SLAM.theta_
    (Pose2SLAM.update (Pose2SLAM.retract_update Samples.sample_retract) x o)
  = [(0%N, Samples.sample_pose 0 0 0); (1%N, Samples.sample_pose 1 0 0)] /\
  Pose2SLAM.theta_
    (Pose2SLAM.updatePreconditioned
       (Pose2SLAM.retract_update Samples.sample_retract) x o)
  = [(0%N, Samples.sample_pose 0 0 0); (1%N, Samples.sample_pose 1 0 0)].
Proof. vm_compute. auto. Qed.

(* ===================================================================== *)
(** * Further properties of the code *)
(* ===================================================================== *)

(** ** Order of binary64 values *)

#[local] Ltac compare_cases :=
  repeat match goal with
  | H : context [Pos.compare_cont Eq ?p ?q] |- _ =>
      change (Pos.compare_cont Eq p q) with (Pos.compare p q) in H
  | |- context [Pos.compare_cont Eq ?p ?q] =>
      change (Pos.compare_cont Eq p q) with (Pos.compare p q)
  end;
  repeat match goal with
  | H : context [Z.compare ?a ?b] |- _ =>
      destruct (Z.compare_spec a b); simpl in H; try discriminate H
  | H : context [Pos.compare ?a ?b] |- _ =>
      destruct (Pos.compare_spec a b); simpl in H; try discriminate H
  end;
  repeat match goal with
  | |- context [Z.compare ?a ?b] => destruct (Z.compare_spec a b); simpl
  | |- context [Pos.compare ?a ?b] => destruct (Pos.compare_spec a b); simpl
  end;
  try reflexivity; try discriminate; try (exfalso; lia).

Lemma SFcompare_lt_trans (a b c : double) :
  SFcompare a b = Some Lt -> SFcompare b c = Some Lt -> SFcompare a c = Some Lt.
Proof.
  destruct a as [sa|sa| |sa ma ea], b as [sb|sb| |sb mb eb],
    c as [sc|sc| |sc mc ec]; simpl;
    try discriminate; try reflexivity;
    try (destruct sa; simpl; try discriminate; try reflexivity);
    try (destruct sb; simpl; try discriminate; try reflexivity);
    try (destruct sc; simpl; try discriminate; try reflexivity);
    intros Hab Hbc; try discriminate;
    injection Hab as Hab; injection Hbc as Hbc; f_equal; compare_cases.
Qed.

Lemma SFcompare_eq_lt (a b c : double) :
  SFcompare a b = Some Eq -> SFcompare b c = Some Lt -> SFcompare a c = Some Lt.
Proof.
  destruct a as [sa|sa| |sa ma ea], b as [sb|sb| |sb mb eb],
    c as [sc|sc| |sc mc ec]; simpl;
    try discriminate; try reflexivity;
    try (destruct sa; simpl; try discriminate; try reflexivity);
    try (destruct sb; simpl; try discriminate; try reflexivity);
    try (destruct sc; simpl; try discriminate; try reflexivity);
    intros Hab Hbc; try discriminate;
    injection Hab as Hab; injection Hbc as Hbc; f_equal; compare_cases.
Qed.

Lemma SFcompare_lt_eq (a b c : double) :
  SFcompare a b = Some Lt -> SFcompare b c = Some Eq -> SFcompare a c = Some Lt.
Proof.
  destruct a as [sa|sa| |sa ma ea], b as [sb|sb| |sb mb eb],
    c as [sc|sc| |sc mc ec]; simpl;
    try discriminate; try reflexivity;
    try (destruct sa; simpl; try discriminate; try reflexivity);
    try (destruct sb; simpl; try discriminate; try reflexivity);
    try (destruct sc; simpl; try discriminate; try reflexivity);
    intros Hab Hbc; try discriminate;
    injection Hab as Hab; injection Hbc as Hbc; f_equal; compare_cases.
Qed.

Lemma le_lt_trans (a b c : double) :
  D.le a b = true -> D.lt b c = true -> D.lt a c = true.
Proof.
  unfold D.le, D.lt, SFleb, SFltb. intros Hab Hbc.
  destruct (SFcompare a b) as [[]|] eqn:Eab; try discriminate;
    destruct (SFcompare b c) as [[]|] eqn:Ebc; try discriminate.
  - by rewrite (SFcompare_eq_lt _ _ _ Eab Ebc).
  - by rewrite (SFcompare_lt_trans _ _ _ Eab Ebc).
Qed.

Lemma lt_le_trans (a b c : double) :
  D.lt a b = true -> D.le b c = true -> D.lt a c = true.
Proof.
  unfold D.le, D.lt, SFleb, SFltb. intros Hab Hbc.
  destruct (SFcompare a b) as [[]|] eqn:Eab; try discriminate;
    destruct (SFcompare b c) as [[]|] eqn:Ebc; try discriminate.
  - by rewrite (SFcompare_lt_eq _ _ _ Eab Ebc).
  - by rewrite (SFcompare_lt_trans _ _ _ Eab Ebc).
Qed.

Lemma fabs_nonnegative (e : double) :
  D.is_nan e = false -> D.le D.zero (D.fabs e) = true.
Proof. destruct e as [s|s| |s m x]; simpl; try discriminate; reflexivity. Qed.

(** ** More on checkFeasibilityAndComplimentary *)

Section CheckMore.

Context {Values JacobianFactor HessianFactor : Type}.

#[local] Abbreviation Factor := (NonlinearFactor Values JacobianFactor HessianFactor).
#[local] Abbreviation Graph := (list (NonlinearFactor Values JacobianFactor HessianFactor)).

Implicit Types (graph pre post rest : Graph) (f factor : Factor).
Implicit Types (values : Values) (duals : VectorValues) (tol e : double) (k : Key).

(** One turn of the loop: the check goes on to the rest exactly when the
    factor is satisfied, and returns [true] only through the rest. *)
Lemma check_cons_true f rest values duals tol :
  checkFeasibilityAndComplimentary (f :: rest) values duals tol = Ret true <->
  factor_satisfied f values duals tol = true /\
  checkFeasibilityAndComplimentary rest values duals tol = Ret true.
Proof.
  rewrite check_cons_error. unfold factor_satisfied, satisfied.
  destruct (constraint_error f values) as [e| |]; simpl;
    try (split; [discriminate|intros [? _]; discriminate]).
  destruct (D.gt e tol); simpl;
    [destruct (cast_NonlinearConstraint f);
     (split; [discriminate|intros [? _]; discriminate])|].
  destruct (cast_NonlinearConstraint f) as [c|]; simpl;
    [|split; [discriminate|intros [? _]; discriminate]].
  destruct (VectorValues_exists duals (dualKey c)); simpl; [|tauto].
  destruct (D.gt (D.fabs e) tol); simpl; [|tauto].
  split; [discriminate|intros [? _]; discriminate].
Qed.

Lemma factor_satisfied_inequality_factor f values duals tol e k :
  inequality_factor f values e k ->
  factor_satisfied f values duals tol = satisfied duals tol e k.
Proof.
  intros [He Hk]. unfold factor_satisfied. rewrite He.
  destruct (cast_NonlinearConstraint f) as [c|]; simpl in Hk; [|discriminate].
  by injection Hk as ->.
Qed.

Lemma factor_satisfied_inv f values duals tol :
  factor_satisfied f values duals tol = true ->
  exists e k, inequality_factor f values e k /\ satisfied duals tol e k = true.
Proof.
  unfold factor_satisfied, inequality_factor.
  destruct (constraint_error f values) as [e| |]; try discriminate.
  destruct (cast_NonlinearConstraint f) as [c|]; try discriminate.
  intros Hs. by exists e, (dualKey c).
Qed.

(** A [true] answer, factor by factor. *)
Lemma check_true_spec graph values duals tol :
  checkFeasibilityAndComplimentary graph values duals tol = Ret true <->
  forall f, In f graph ->
    exists e k, inequality_factor f values e k /\
      D.gt e tol = false /\
      (VectorValues_exists duals k = true -> D.gt (D.fabs e) tol = false).
Proof.
  induction graph as [|g graph IH].
  - split; [intros _ f []|reflexivity].
  - rewrite check_cons_true, IH. split.
    + intros [Hg Hrest] f [<-|Hin]; [|by apply Hrest].
      destruct (factor_satisfied_inv _ _ _ _ Hg) as (e & k & Hf & Hs).
      exists e, k. split; [exact Hf|]. unfold satisfied in Hs.
      destruct (D.gt e tol); [discriminate|]. split; [reflexivity|].
      intros Hk. rewrite Hk in Hs. simpl in Hs.
      by destruct (D.gt (D.fabs e) tol).
    + intros Hall. split; [|intros f Hin; apply Hall; by right].
      destruct (Hall g (or_introl eq_refl)) as (e & k & Hf & Hgt & Hk).
      rewrite (factor_satisfied_inequality_factor _ _ _ _ _ _ Hf).
      unfold satisfied. rewrite Hgt. simpl.
      destruct (VectorValues_exists duals k); [|reflexivity].
      by rewrite Hk.
Qed.

(** X1: the check answers [true] exactly when every factor of the graph
    is satisfied: it casts to both interfaces, its error has a component
    0, that component is not [> tol], and, when the factor's dual key is
    in the dual map, its magnitude is not [> tol] either. *)
Theorem check_true_iff graph values duals tol :
  checkFeasibilityAndComplimentary graph values duals tol = Ret true <->
  forall f, In f graph ->
    exists e k, inequality_factor f values e k /\
      D.gt e tol = false /\
      (VectorValues_exists duals k = true -> D.gt (D.fabs e) tol = false).
Proof.
  split; intros H.
  - exact (proj1 (check_true_spec graph values duals tol) H).
  - exact (proj2 (check_true_spec graph values duals tol) H).
Qed.

(** X2: the loop stops at the first factor that makes it return: when a
    prefix of the graph does not pass (it is reported infeasible, or one
    of its factors throws or fails a cast) the factors after it are
    never looked at, and when the prefix passes the result is that of
    the rest. *)
Theorem check_stops_early pre post values duals tol :
  (checkFeasibilityAndComplimentary pre values duals tol <> Ret true ->
   checkFeasibilityAndComplimentary (pre ++ post) values duals tol =
   checkFeasibilityAndComplimentary pre values duals tol) /\
  (checkFeasibilityAndComplimentary pre values duals tol = Ret true ->
   checkFeasibilityAndComplimentary (pre ++ post) values duals tol =
   checkFeasibilityAndComplimentary post values duals tol).
Proof.
  rewrite check_app.
  destruct (checkFeasibilityAndComplimentary pre values duals tol)
    as [[]| |]; simpl; split; intros Hpre;
    try reflexivity; try discriminate; by destruct Hpre.
Qed.

(** X3: the order of the factors does not matter to a [true] answer,
    and on an inequality graph it does not matter at all. *)
Theorem check_permutation graph graph' values duals tol :
  Permutation graph graph' ->
  (checkFeasibilityAndComplimentary graph values duals tol = Ret true <->
   checkFeasibilityAndComplimentary graph' values duals tol = Ret true) /\
  (inequality_graph graph values ->
   checkFeasibilityAndComplimentary graph' values duals tol =
   checkFeasibilityAndComplimentary graph values duals tol).
Proof.
  intros Hperm.
  assert (checkFeasibilityAndComplimentary graph values duals tol = Ret true <->
          checkFeasibilityAndComplimentary graph' values duals tol = Ret true)
    as Htrue.
  { rewrite !check_true_spec. split; intros Hall f Hin; apply Hall.
    - by apply (Permutation_in _ (Permutation_sym Hperm)).
    - by apply (Permutation_in _ Hperm). }
  split; [exact Htrue|]. intros Hg.
  assert (inequality_graph graph' values) as Hg'
    by exact (Permutation_Forall Hperm Hg).
  destruct (check_inequality_graph _ _ duals tol Hg) as [b Hb].
  destruct (check_inequality_graph _ _ duals tol Hg') as [b' Hb'].
  rewrite Hb, Hb' in *. destruct b, b'; try reflexivity.
  - by rewrite (proj1 Htrue eq_refl).
  - by rewrite (proj2 Htrue eq_refl).
Qed.

Lemma VectorValues_exists_dom duals k :
  VectorValues_exists duals k = true <-> k ∈ dom duals.
Proof.
  unfold VectorValues_exists. rewrite elem_of_dom.
  destruct (duals !! k); split; intros H; try done; by destruct H.
Qed.

(** X4: the check reads the dual map through its key set alone: the
    values of the duals (the multipliers) are never looked at, and two
    dual maps with the same keys get the same answer. *)
Theorem check_dual_keys_only graph values duals duals' tol :
  dom duals = dom duals' ->
  checkFeasibilityAndComplimentary graph values duals tol =
  checkFeasibilityAndComplimentary graph values duals' tol.
Proof.
  intros Hdom.
  assert (forall k, VectorValues_exists duals k = VectorValues_exists duals' k)
    as Hsame.
  { intros k. apply eq_true_iff_eq.
    by rewrite !VectorValues_exists_dom, Hdom. }
  induction graph as [|f graph IH]; [reflexivity|].
  rewrite !check_cons_error.
  destruct (constraint_error f values) as [e| |]; simpl; try reflexivity.
  destruct (D.gt e tol); simpl; [reflexivity|].
  destruct (cast_NonlinearConstraint f) as [c|]; simpl; [|reflexivity].
  by rewrite Hsame, IH.
Qed.

(** X5: making constraints inactive never turns a passing check into a
    failing one: a graph that passes with a dual map passes with every
    dual map that has fewer keys, the empty one included. *)
Theorem check_fewer_duals graph values duals duals' tol :
  dom duals' ⊆ dom duals ->
  checkFeasibilityAndComplimentary graph values duals tol = Ret true ->
  checkFeasibilityAndComplimentary graph values duals' tol = Ret true.
Proof.
  intros Hsub. rewrite !check_true_spec. intros Hall f Hin.
  destruct (Hall f Hin) as (e & k & Hf & Hgt & Hk).
  exists e, k. split; [exact Hf|]. split; [exact Hgt|].
  intros Hk'. apply Hk, VectorValues_exists_dom, Hsub.
  by apply VectorValues_exists_dom.
Qed.

(** X6: a graph that passes at a tolerance passes at every larger one. *)
Theorem check_larger_tolerance graph values duals tol tol' :
  D.le tol tol' = true ->
  checkFeasibilityAndComplimentary graph values duals tol = Ret true ->
  checkFeasibilityAndComplimentary graph values duals tol' = Ret true.
Proof.
  intros Hle. rewrite !check_true_spec. intros Hall f Hin.
  assert (forall x, D.gt x tol = false -> D.gt x tol' = false) as Hmono.
  { intros x Hx. destruct (D.gt x tol') eqn:Hx'; [|reflexivity].
    unfold D.gt in *. fold (D.lt tol' x) in Hx'. fold (D.lt tol x) in Hx.
    by rewrite (le_lt_trans _ _ _ Hle Hx') in Hx. }
  destruct (Hall f Hin) as (e & k & Hf & Hgt & Hk).
  exists e, k. split; [exact Hf|]. split; [by apply Hmono|].
  intros Hk'. by apply Hmono, Hk.
Qed.

(** X7: with a negative tolerance no active constraint can pass: in a
    graph that passes, every factor's dual key is absent from the dual
    map, unless its error is NaN. *)
Theorem check_negative_tolerance graph values duals tol :
  D.lt tol D.zero = true ->
  checkFeasibilityAndComplimentary graph values duals tol = Ret true ->
  forall f, In f graph ->
    exists e k, inequality_factor f values e k /\
      (VectorValues_exists duals k = false \/ D.is_nan e = true).
Proof.
  intros Hneg. rewrite check_true_spec. intros Hall f Hin.
  destruct (Hall f Hin) as (e & k & Hf & _ & Hk).
  exists e, k. split; [exact Hf|].
  destruct (VectorValues_exists duals k); [|by left].
  destruct (D.is_nan e) eqn:Hnan; [by right|]. exfalso.
  specialize (Hk eq_refl). unfold D.gt in Hk. fold (D.lt tol (D.fabs e)) in Hk.
  by rewrite (lt_le_trans _ _ _ Hneg (fabs_nonnegative e Hnan)) in Hk.
Qed.

(** ** More on linearize *)

Lemma linearize_loop_inv graph values :
  forall acc lg,
    linearize_loop graph values acc = Ret lg ->
    exists lg', lg = acc ++ lg' /\
      Forall2 (fun f l => linearizes_to f values (li_jacobian l) (li_dualKey l))
        graph lg'.
Proof.
  induction graph as [|f graph IH]; intros acc lg Hloop.
  - injection Hloop as <-. exists []. split; [by rewrite app_nil_r|constructor].
  - simpl in Hloop.
    destruct (factor_linearize f values) as [[jf|hf]| |] eqn:Hlin;
      simpl in Hloop; try discriminate.
    destruct (cast_NonlinearConstraint f) as [c|] eqn:Hc;
      simpl in Hloop; try discriminate.
    destruct (IH _ _ Hloop) as (lg' & -> & Hall).
    exists ({| li_jacobian := jf; li_dualKey := dualKey c |} :: lg'). split.
    + unfold add. by rewrite <- app_assoc.
    + constructor; [|exact Hall]. split; [exact Hlin|]. by rewrite Hc.
Qed.

(** X8: [linearize] returns a graph only when every factor linearized
    to a Jacobian factor and cast to a constraint; the graph it returns
    then pairs each factor, in order, with its Jacobian and its dual
    key.  After a failed cast or an exception nothing is returned. *)
Theorem linearize_inv graph values linearGraph :
  linearize graph values = Ret linearGraph ->
  Forall2 (fun f l => linearizes_to f values (li_jacobian l) (li_dualKey l))
    graph linearGraph.
Proof.
  intros Hlin. destruct (linearize_loop_inv _ _ _ _ Hlin) as (lg & -> & Hall).
  exact Hall.
Qed.

Lemma linearize_loop_acc graph values :
  forall acc,
    linearize_loop graph values acc =
    linearize graph values ≫= fun lg => Ret (acc ++ lg).
Proof.
  unfold linearize.
  induction graph as [|f graph IH]; intros acc; simpl.
  - by rewrite app_nil_r.
  - destruct (factor_linearize f values) as [[jf|hf]| |]; simpl; try reflexivity.
    destruct (cast_NonlinearConstraint f) as [c|]; simpl; try reflexivity.
    rewrite (IH (add acc _)), (IH (add [] _)).
    destruct (linearize_loop graph values []) as [lg| |]; simpl; try reflexivity.
    unfold add. by rewrite <- app_assoc.
Qed.

Lemma linearize_loop_app graph1 graph2 values :
  forall acc,
    linearize_loop (graph1 ++ graph2) values acc =
    linearize_loop graph1 values acc ≫= fun lg1 =>
    linearize graph2 values ≫= fun lg2 => Ret (lg1 ++ lg2).
Proof.
  induction graph1 as [|f graph1 IH]; intros acc; simpl.
  - apply linearize_loop_acc.
  - destruct (factor_linearize f values) as [[jf|hf]| |]; simpl; try reflexivity.
    destruct (cast_NonlinearConstraint f) as [c|]; simpl; try reflexivity.
    apply IH.
Qed.

(** X9: linearizing a concatenation is linearizing the parts in turn and
    concatenating the results; the first failure, in either part, is the
    failure of the whole. *)
Theorem linearize_app graph1 graph2 values :
  linearize (graph1 ++ graph2) values =
  linearize graph1 values ≫= fun lg1 =>
  linearize graph2 values ≫= fun lg2 => Ret (lg1 ++ lg2).
Proof. apply linearize_loop_app. Qed.

End CheckMore.

(** ** The Jacobians of the projection, in exact arithmetic *)

Section JacobianFacts.

Import Camera Jacobians.

#[local] Open Scope Qc_scope.

#[local] Ltac unfold_jacobians :=
  unfold normalized, inverse_depth, moved_camera, moved_point, unrotate,
    Point2_scale, Point2_minus, Matrix2_apply, Matrix26_apply, Matrix23_apply,
    Matrix2_times_26, Matrix2_times_23, Matrix23_scale, Point3_opp, Point3_zero,
    s_opp, Qc_ScalarOpp in *;
  simpl in *.

(** X10: the pose Jacobian is the exact first-order term of the
    projection.  When the camera moves by the twist (omega, t), a
    camera-frame point [q] goes to [q - omega x q - t] to first order,
    and its normalized projection moves from [pn] to [pn']: the
    displacement seen through [Dpi_pn], times the new depth, is [Dpose]
    applied to the twist, times the old depth. *)
Theorem calculateDpose_first_order (q omega t : Point3 Qc)
    (pn pn' : Point2 Qc) (d : Qc) (Dpi_pn : Matrix2 Qc) :
  normalized q pn -> inverse_depth q d ->
  normalized (moved_camera q omega t) pn' ->
  exists Dpose,
    calculateDpose pn d Dpi_pn 2 6 = Ret Dpose /\
    Point2_scale (p3z (moved_camera q omega t))
      (Matrix2_apply Dpi_pn (Point2_minus pn' pn)) =
    Point2_scale (p3z q) (Matrix26_apply Dpose omega t).
Proof.
  destruct q as [x y z], omega as [wx wy wz], t as [tx ty tz],
    pn as [u v], pn' as [u' v'], Dpi_pn as [a00 a01 a10 a11].
  intros [Hx Hy] Hd [Hx' Hy'].
  eexists. split; [reflexivity|].
  unfold_jacobians. subst x y.
  change (Q2Qc (inject_Z 0)) with 0.
  set (z' := z - (wx * (v * z) - wy * (u * z)) - tz) in *.
  f_equal.
  - transitivity (a00 * (u' * z' - u * z') + a01 * (v' * z' - v * z')); [ring|].
    rewrite Hx', Hy'. subst z'. ring [Hd].
  - transitivity (a10 * (u' * z' - u * z') + a11 * (v' * z' - v * z')); [ring|].
    rewrite Hx', Hy'. subst z'. ring [Hd].
Qed.

(** In terms of the pose: moving the world point by [h] moves its
    camera coordinates by [R^T h]. *)
Lemma transform_to_moved_point (p : Pose3 Qc) (point h : Point3 Qc) :
  transform_to p
    (mkPoint3 (p3x point + p3x h) (p3y point + p3y h) (p3z point + p3z h)) =
  moved_point (rotation p) (transform_to p point) h.
Proof.
  destruct p as [[a00 a01 a02 a10 a11 a12 a20 a21 a22] [tx ty tz]].
  destruct point as [x y z], h as [hx hy hz].
  unfold transform_to. unfold_jacobians. f_equal; ring.
Qed.

(** X11: the point Jacobian gives the displacement of the projection
    exactly, up to the ratio of the depths.  When the world point moves
    by [h], the camera-frame point [q] goes to [q + R^T h] and its
    normalized projection from [pn] to [pn']: the displacement seen
    through [Dpi_pn], times the new depth, is [Dpoint] applied to [h],
    times the old depth. *)
Theorem calculateDpoint_first_order (Rm : Matrix3 Qc) (q h : Point3 Qc)
    (pn pn' : Point2 Qc) (d : Qc) (Dpi_pn : Matrix2 Qc) :
  normalized q pn -> inverse_depth q d ->
  normalized (moved_point Rm q h) pn' ->
  exists Dpoint,
    calculateDpoint pn d Rm Dpi_pn 2 3 = Ret Dpoint /\
    Point2_scale (p3z (moved_point Rm q h))
      (Matrix2_apply Dpi_pn (Point2_minus pn' pn)) =
    Point2_scale (p3z q) (Matrix23_apply Dpoint h).
Proof.
  destruct Rm as [b00 b01 b02 b10 b11 b12 b20 b21 b22].
  destruct q as [x y z], h as [hx hy hz],
    pn as [u v], pn' as [u' v'], Dpi_pn as [a00 a01 a10 a11].
  intros [Hx Hy] Hd [Hx' Hy'].
  eexists. split; [reflexivity|].
  unfold_jacobians. subst x y.
  set (z' := z + (b02 * hx + b12 * hy + b22 * hz)) in *.
  f_equal.
  - transitivity (a00 * (u' * z' - u * z') + a01 * (v' * z' - v * z')); [ring|].
    rewrite Hx', Hy'. subst z'. ring [Hd].
  - transitivity (a10 * (u' * z' - u * z') + a11 * (v' * z' - v * z')); [ring|].
    rewrite Hx', Hy'. subst z'. ring [Hd].
Qed.

(** X12: the two Jacobians agree on translations: moving the world
    point by [h] changes the projection as moving the camera by
    [- R^T h] does. *)
Theorem calculateDpoint_calculateDpose (Rm : Matrix3 Qc) (h : Point3 Qc)
    (pn : Point2 Qc) (d : Qc) (Dpi_pn : Matrix2 Qc) :
  exists Dpose Dpoint,
    calculateDpose pn d Dpi_pn 2 6 = Ret Dpose /\
    calculateDpoint pn d Rm Dpi_pn 2 3 = Ret Dpoint /\
    Matrix23_apply Dpoint h =
    Matrix26_apply Dpose Point3_zero (Point3_opp (unrotate Rm h)).
Proof.
  destruct Rm as [b00 b01 b02 b10 b11 b12 b20 b21 b22].
  destruct h as [hx hy hz], pn as [u v], Dpi_pn as [a00 a01 a10 a11].
  eexists _, _. split; [reflexivity|]. split; [reflexivity|].
  unfold_jacobians. change (Q2Qc (inject_Z 0)) with 0.
  f_equal; ring.
Qed.

(** A destination of another size than 2x6 or 2x3 is refused. *)
Lemma calculateDpose_wrong_size (pn : Point2 Qc) (d : Qc) (Dpi_pn : Matrix2 Qc)
    (rows cols : nat) :
  (rows, cols) <> (2%nat, 6%nat) ->
  calculateDpose pn d Dpi_pn rows cols = Undefined.
Proof.
  intros Hsize. unfold calculateDpose, assert_size.
  destruct (Nat.eqb_spec rows 2), (Nat.eqb_spec cols 6); simpl;
    try reflexivity. subst. by destruct Hsize.
Qed.

End JacobianFacts.

(** *** The Jacobians on sample points *)

(** The point (0, 0, 1) in front of a calibrated camera that moves by 1
    along its x axis. *)
Lemma calculateDpose_first_order_witness :
  Jacobians.normalized (Samples.point_Qc 0 0 1) (MoreSamples.point2_Qc 0 0) /\
  Jacobians.inverse_depth (Samples.point_Qc 0 0 1) (Q2Qc 1) /\
  Jacobians.normalized
    (Jacobians.moved_camera (Samples.point_Qc 0 0 1) (Samples.point_Qc 0 0 0)
       (Samples.point_Qc 1 0 0))
    (MoreSamples.point2_Qc (-1) 0) /\
  exists Dpose,
    Jacobians.calculateDpose (MoreSamples.point2_Qc 0 0) (Q2Qc 1)
      MoreSamples.identity2 2 6 = Ret Dpose /\
    Jacobians.Point2_scale
      (Camera.p3z (Jacobians.moved_camera (Samples.point_Qc 0 0 1)
                     (Samples.point_Qc 0 0 0) (Samples.point_Qc 1 0 0)))
      (Jacobians.Matrix2_apply MoreSamples.identity2
         (Jacobians.Point2_minus (MoreSamples.point2_Qc (-1) 0)
            (MoreSamples.point2_Qc 0 0))) =
    Jacobians.Point2_scale (Camera.p3z (Samples.point_Qc 0 0 1))
      (Jacobians.Matrix26_apply Dpose (Samples.point_Qc 0 0 0)
         (Samples.point_Qc 1 0 0)).
Proof.
  assert (Jacobians.normalized (Samples.point_Qc 0 0 1)
            (MoreSamples.point2_Qc 0 0)) as Hn
    by (split; apply Qc_is_canon; reflexivity).
  assert (Jacobians.inverse_depth (Samples.point_Qc 0 0 1) (Q2Qc 1)) as Hd
    by (apply Qc_is_canon; reflexivity).
  assert (Jacobians.normalized
            (Jacobians.moved_camera (Samples.point_Qc 0 0 1)
               (Samples.point_Qc 0 0 0) (Samples.point_Qc 1 0 0))
            (MoreSamples.point2_Qc (-1) 0)) as Hn'
    by (split; apply Qc_is_canon; reflexivity).
  split; [exact Hn|]. split; [exact Hd|]. split; [exact Hn'|].
  exact (calculateDpose_first_order _ _ _ _ _ _ MoreSamples.identity2 Hn Hd Hn').
Defined.

(** The point (10, 2, 4) seen by the level camera at depth 10, moved by
    (0, 1, 0) in the world. *)
Lemma calculateDpoint_first_order_witness :
  Jacobians.normalized (Samples.point_Qc (-2) (-4) 10)
    (Camera.mkPoint2 (Q2Qc (-2 # 10)) (Q2Qc (-4 # 10))) /\
  Jacobians.inverse_depth (Samples.point_Qc (-2) (-4) 10) (Q2Qc (1 # 10)) /\
  Jacobians.normalized
    (Jacobians.moved_point Samples.level_rotation
       (Samples.point_Qc (-2) (-4) 10) (Samples.point_Qc 0 1 0))
    (Camera.mkPoint2 (Q2Qc (-3 # 10)) (Q2Qc (-4 # 10))) /\
  exists Dpoint,
    Jacobians.calculateDpoint
      (Camera.mkPoint2 (Q2Qc (-2 # 10)) (Q2Qc (-4 # 10))) (Q2Qc (1 # 10))
      Samples.level_rotation MoreSamples.identity2 2 3 = Ret Dpoint /\
    Jacobians.Point2_scale
      (Camera.p3z (Jacobians.moved_point Samples.level_rotation
                     (Samples.point_Qc (-2) (-4) 10) (Samples.point_Qc 0 1 0)))
      (Jacobians.Matrix2_apply MoreSamples.identity2
         (Jacobians.Point2_minus
            (Camera.mkPoint2 (Q2Qc (-3 # 10)) (Q2Qc (-4 # 10)))
            (Camera.mkPoint2 (Q2Qc (-2 # 10)) (Q2Qc (-4 # 10))))) =
    Jacobians.Point2_scale (Camera.p3z (Samples.point_Qc (-2) (-4) 10))
      (Jacobians.Matrix23_apply Dpoint (Samples.point_Qc 0 1 0)).
Proof.
  assert (Jacobians.normalized (Samples.point_Qc (-2) (-4) 10)
            (Camera.mkPoint2 (Q2Qc (-2 # 10)) (Q2Qc (-4 # 10)))) as Hn
    by (split; apply Qc_is_canon; reflexivity).
  assert (Jacobians.inverse_depth (Samples.point_Qc (-2) (-4) 10)
            (Q2Qc (1 # 10))) as Hd
    by (apply Qc_is_canon; reflexivity).
  assert (Jacobians.normalized
            (Jacobians.moved_point Samples.level_rotation
               (Samples.point_Qc (-2) (-4) 10) (Samples.point_Qc 0 1 0))
            (Camera.mkPoint2 (Q2Qc (-3 # 10)) (Q2Qc (-4 # 10)))) as Hn'
    by (split; apply Qc_is_canon; reflexivity).
  split; [exact Hn|]. split; [exact Hd|]. split; [exact Hn'|].
  exact (calculateDpoint_first_order _ _ _ _ _ _ MoreSamples.identity2 Hn Hd Hn').
Defined.

(** The pose Jacobian at the principal point, depth 10, in binary64:
    the entries of the comma initializer, row by row, signed zeros
    included. *)
Example calculateDpose_binary64 :
  Jacobians.calculateDpose
    (Camera.mkPoint2 (D.of_Z 0) (D.of_Z 0)) (D.div (D.of_Z 1) (D.of_Z 10))
    (Jacobians.mkMatrix2 (D.of_Z 1) (D.of_Z 0) (D.of_Z 0) (D.of_Z 1)) 2 6
  = Ret (Jacobians.mkMatrix26
           (D.of_Z 0, D.of_Z (-1), D.of_Z 0,
            SFopp (D.div (D.of_Z 1) (D.of_Z 10)), D.of_Z 0, D.of_Z 0)
           (D.of_Z 1, SFopp (D.of_Z 0), D.of_Z 0,
            D.of_Z 0, SFopp (D.div (D.of_Z 1) (D.of_Z 10)), D.of_Z 0)).
Proof. vm_compute. reflexivity. Qed.

(** ** The constructor of Pose2SLAMOptimizer, when loading fails *)

Section ConstructorFacts.

Import Pose2SLAM.

Context {Pose2 SharedDiagonal Solver : Type}.
Variable dataset : string -> string * option SharedDiagonal.
Variable load2D :
  string -> Z -> option SharedDiagonal -> bool ->
  outcome (Pose2Graph Pose2 SharedDiagonal * Pose2Config Pose2).
Variable solver_default : Solver.
Variable solver_initialize :
  Solver -> Pose2Graph Pose2 SharedDiagonal -> Pose2Config Pose2 -> Solver.

(** X13: the constructor has no check of its own: an exception of the
    loader leaves it as it is, and with an empty initial estimate it
    dereferences [begin()] of an empty map, which has no defined
    behaviour (nothing is promised about what it then returns). *)
Theorem constructor_failures (dataset_name path filename : string)
    (noiseModel : option SharedDiagonal) :
  dataset dataset_name = (filename, noiseModel) ->
  (forall e, load2D filename 0 noiseModel false = Throw e ->
     Pose2SLAMOptimizer_new dataset load2D solver_default solver_initialize
       dataset_name path = Throw e) /\
  (forall graph, load2D filename 0 noiseModel false = Ret (graph, []) ->
     Pose2SLAMOptimizer_new dataset load2D solver_default solver_initialize
       dataset_name path = Undefined).
Proof.
  intros Hdataset. unfold Pose2SLAMOptimizer_new. rewrite Hdataset.
  split.
  - by intros e ->.
  - by intros graph ->.
Qed.

End ConstructorFacts.

Lemma constructor_failures_witness :
  Pose2SLAM.Pose2SLAMOptimizer_new Samples.sample_dataset
    MoreSamples.failing_load2D None Samples.sample_initialize "w100" ""
  = Throw (RuntimeError "w100") /\
  Pose2SLAM.Pose2SLAMOptimizer_new Samples.sample_dataset
    MoreSamples.empty_load2D None Samples.sample_initialize "w100" ""
  = Undefined.
Proof.
  split.
  - exact (proj1 (constructor_failures Samples.sample_dataset
                    MoreSamples.failing_load2D None Samples.sample_initialize
                    "w100" "" "w100" None eq_refl) _ eq_refl).
  - exact (proj2 (constructor_failures Samples.sample_dataset
                    MoreSamples.empty_load2D None Samples.sample_initialize
                    "w100" "" "w100" None eq_refl) [] eq_refl).
Defined.

(** ** NaN in the check *)

Section CheckNaN.

Context {Values JacobianFactor HessianFactor : Type}.

Lemma gt_nan (x y : double) :
  D.is_nan x = true \/ D.is_nan y = true -> D.gt x y = false.
Proof.
  unfold D.gt, SFltb.
  intros [Hx|Hy]; destruct x, y; simpl in *; try discriminate; reflexivity.
Qed.

(** X14: a NaN never makes the check fail: an inequality graph passes,
    whatever the dual map, when the tolerance is NaN, and also when the
    error of each of its constraints is NaN. *)
Theorem check_nan_passes
    (graph : list (NonlinearFactor Values JacobianFactor HessianFactor))
    (values : Values) (duals : VectorValues) (tol : double) :
  inequality_graph graph values ->
  D.is_nan tol = true \/
  (forall f e k, In f graph -> inequality_factor f values e k ->
                 D.is_nan e = true) ->
  checkFeasibilityAndComplimentary graph values duals tol = Ret true.
Proof.
  intros Hg Hnan. apply check_true_intro; [exact Hg|].
  intros f e k Hin Hf. unfold satisfied.
  assert (D.is_nan e = true \/ D.is_nan tol = true) as He.
  { destruct Hnan as [Htol|Hall]; [by right|left; by apply (Hall f e k)]. }
  rewrite (gt_nan e tol He), (gt_nan (D.fabs e) tol).
  - simpl. by destruct (VectorValues_exists duals k).
  - rewrite fabs_is_nan. exact He.
Qed.

End CheckNaN.

(** ** The check and the linearization on sample graphs *)


#[local] Ltac sample_graph_tac :=
  repeat constructor; eexists _, _; split; reflexivity.

(** After an infeasible factor, a factor that is no constraint at all is
    never reached; after a feasible one, the rest decides. *)
Lemma check_stops_early_witness :
  checkFeasibilityAndComplimentary
    ([Samples.constant (D.of_Z 2) 0] ++ [MoreSamples.not_a_constraint])
    tt Samples.duals1 (D.of_Z 1) = Ret false /\
  checkFeasibilityAndComplimentary
    ([Samples.constant (D.of_Z 0) 0] ++ [MoreSamples.not_a_constraint])
    tt Samples.duals1 (D.of_Z 1) = Undefined.
Proof.
  split.
  - refine (proj1 (check_stops_early [Samples.constant (D.of_Z 2) 0]
                     [MoreSamples.not_a_constraint] tt Samples.duals1
                     (D.of_Z 1)) _).
    discriminate.
  - refine (proj2 (check_stops_early [Samples.constant (D.of_Z 0) 0]
                     [MoreSamples.not_a_constraint] tt Samples.duals1
                     (D.of_Z 1)) _).
    reflexivity.
Defined.

(** The same two factors the other way round: with a factor that is no
    constraint, the order decides between [false] and no result. *)
Example check_order_matters :
  checkFeasibilityAndComplimentary
    [MoreSamples.not_a_constraint; Samples.constant (D.of_Z 2) 0]
    tt Samples.duals1 (D.of_Z 1) = Undefined /\
  checkFeasibilityAndComplimentary
    [Samples.constant (D.of_Z 2) 0; MoreSamples.not_a_constraint]
    tt Samples.duals1 (D.of_Z 1) = Ret false.
Proof. split; reflexivity. Qed.

Lemma check_permutation_witness :
  inequality_graph
    [Samples.constant (D.of_Z 0) 0; Samples.constant (D.of_Z 2) 1] tt /\
  checkFeasibilityAndComplimentary
    [Samples.constant (D.of_Z 2) 1; Samples.constant (D.of_Z 0) 0]
    tt Samples.duals1 (D.of_Z 1) =
  checkFeasibilityAndComplimentary
    [Samples.constant (D.of_Z 0) 0; Samples.constant (D.of_Z 2) 1]
    tt Samples.duals1 (D.of_Z 1).
Proof.
  assert (inequality_graph
            [Samples.constant (D.of_Z 0) 0; Samples.constant (D.of_Z 2) 1] tt)
    as Hg by sample_graph_tac.
  split; [exact Hg|].
  exact (proj2 (check_permutation _ _ tt Samples.duals1 (D.of_Z 1)
                  (perm_swap _ _ [])) Hg).
Defined.

Lemma check_dual_keys_only_witness :
  Samples.duals1 <> MoreSamples.duals1' /\
  checkFeasibilityAndComplimentary
    [Samples.constant (D.of_Z 0) 0; Samples.constant (D.of_Z (-5)) 1]
    tt Samples.duals1 (D.of_Z 1) =
  checkFeasibilityAndComplimentary
    [Samples.constant (D.of_Z 0) 0; Samples.constant (D.of_Z (-5)) 1]
    tt MoreSamples.duals1' (D.of_Z 1).
Proof.
  split.
  - intros Heq. apply (f_equal (fun m => m !! 1%N)) in Heq.
    unfold Samples.duals1, MoreSamples.duals1' in Heq.
    rewrite !lookup_singleton_eq in Heq. discriminate.
  - apply check_dual_keys_only.
    unfold Samples.duals1, MoreSamples.duals1'. by rewrite !dom_singleton_L.
Defined.

(** A graph with one active, binding constraint passes with its dual
    map, hence with no duals at all. *)
Lemma check_fewer_duals_witness :
  checkFeasibilityAndComplimentary
    [Samples.constant (D.of_Z (-5)) 0; Samples.constant (D.of_Z 0) 1]
    tt Samples.duals1 (D.of_Z 1) = Ret true /\
  checkFeasibilityAndComplimentary
    [Samples.constant (D.of_Z (-5)) 0; Samples.constant (D.of_Z 0) 1]
    tt ∅ (D.of_Z 1) = Ret true.
Proof.
  split; [reflexivity|].
  apply (check_fewer_duals _ tt Samples.duals1 ∅ (D.of_Z 1)).
  - rewrite dom_empty_L. apply empty_subseteq.
  - reflexivity.
Defined.

Lemma check_larger_tolerance_witness :
  D.le (D.of_Z 1) (D.of_Z 2) = true /\
  checkFeasibilityAndComplimentary
    [Samples.constant (D.of_Z (-5)) 0; Samples.constant (D.of_Z 1) 1]
    tt Samples.duals1 (D.of_Z 1) = Ret true /\
  checkFeasibilityAndComplimentary
    [Samples.constant (D.of_Z (-5)) 0; Samples.constant (D.of_Z 1) 1]
    tt Samples.duals1 (D.of_Z 2) = Ret true.
Proof.
  split; [reflexivity|]. split; [reflexivity|].
  exact (check_larger_tolerance
           [Samples.constant (D.of_Z (-5)) 0; Samples.constant (D.of_Z 1) 1]
           tt Samples.duals1 (D.of_Z 1) (D.of_Z 2) eq_refl eq_refl).
Defined.

(** At tolerance -1 a graph with one inactive constraint of error -5
    passes; its constraint is found inactive. *)
Lemma check_negative_tolerance_witness :
  D.lt (D.of_Z (-1)) D.zero = true /\
  checkFeasibilityAndComplimentary
    [Samples.constant (D.of_Z (-5)) 0] tt Samples.duals1 (D.of_Z (-1))
    = Ret true /\
  exists e k,
    inequality_factor (Samples.constant (D.of_Z (-5)) 0) tt e k /\
    (VectorValues_exists Samples.duals1 k = false \/ D.is_nan e = true).
Proof.
  split; [reflexivity|]. split; [reflexivity|].
  exact (check_negative_tolerance [Samples.constant (D.of_Z (-5)) 0] tt
           Samples.duals1 (D.of_Z (-1)) eq_refl eq_refl
           (Samples.constant (D.of_Z (-5)) 0) (or_introl eq_refl)).
Defined.

(** With a negative tolerance an active constraint fails even when it is
    exactly binding. *)
Example check_negative_tolerance_binding :
  checkFeasibilityAndComplimentary
    [Samples.constant (D.of_Z (-5)) 1] tt Samples.duals1 (D.of_Z (-1))
    = Ret false.
Proof. reflexivity. Qed.

(** An error of 100 against a NaN tolerance, with the constraint
    active: the check passes. *)
Lemma check_nan_passes_witness :
  inequality_graph [Samples.constant (D.of_Z 100) 1] tt /\
  D.is_nan D.nan = true /\
  checkFeasibilityAndComplimentary
    [Samples.constant (D.of_Z 100) 1] tt Samples.duals1 D.nan = Ret true.
Proof.
  assert (inequality_graph [Samples.constant (D.of_Z 100) 1] tt) as Hg
    by sample_graph_tac.
  split; [exact Hg|]. split; [reflexivity|].
  exact (check_nan_passes _ tt Samples.duals1 D.nan Hg (or_introl eq_refl)).
Defined.

Lemma linearize_inv_witness :
  linearize [Samples.constant (D.of_Z 0) 4; Samples.constant (D.of_Z 2) 7] tt
    = Ret [ {| li_jacobian := 4%nat; li_dualKey := 4%N |};
            {| li_jacobian := 7%nat; li_dualKey := 7%N |} ] /\
  Forall2 (fun f l => linearizes_to f tt (li_jacobian l) (li_dualKey l))
    [Samples.constant (D.of_Z 0) 4; Samples.constant (D.of_Z 2) 7]
    [ {| li_jacobian := 4%nat; li_dualKey := 4%N |};
      {| li_jacobian := 7%nat; li_dualKey := 7%N |} ].
Proof.
  split; [reflexivity|].
  exact (linearize_inv
           [Samples.constant (D.of_Z 0) 4; Samples.constant (D.of_Z 2) 7] tt
           _ eq_refl).
Defined.

(** A graph with a factor that is no constraint does not linearize,
    wherever the factor stands. *)
Example linearize_app_sample :
  linearize ([Samples.constant (D.of_Z 0) 4] ++ [MoreSamples.not_a_constraint]) tt
    = Undefined /\
  linearize ([MoreSamples.not_a_constraint] ++ [Samples.constant (D.of_Z 0) 4]) tt
    = Undefined.
Proof. split; reflexivity. Qed.

(** ** Rounding in binary64 *)

Section Rounding.

#[local] Open Scope Z_scope.








End Rounding.

(** ** The round trip through a division and a multiplication *)

Section RoundTrip.

#[local] Open Scope Q_scope.











End RoundTrip.

(** ** The round trip of the camera, in exact arithmetic and in binary64 *)

Section CameraRoundTrip.

Import Camera.



End CameraRoundTrip.


